(** * Rubinius: object creation, the slab fast path and the wait/wakeup
      protocol

    A shallow embedding of

    - [shotgun/lib/object_memory-inline.h] ([_om_inline_new_object], the
      allocator of the C runtime), in [Module Shotgun];
    - [vm/vm.cpp] (the per-thread allocation entry points, [type_assert],
      [VM::checkpoint] and the wakeup family), in [Module VMAlloc],
      [Module TypeCheck], [Module Nexus] and [Module Waiter].

    C integers are [Z] with their wrap-around written out; a pointer is
    an address in [Z], null when 0, and the result of a call that may be
    null is an [option]; an [assert] that fails is the absence of a
    result. *)

From Stdlib Require Import ZArith List Bool Lia Ascii String.
From stdpp Require Import base option gmap list.

Local Open Scope Z_scope.

(** ** Machine integers *)

Definition INT_MAX : Z := 2 ^ 31 - 1.
Definition INT_MIN : Z := - 2 ^ 31.

(** A C [int]: two's complement on 32 bits. *)
Definition wrap_int (z : Z) : Z := (z + 2 ^ 31) mod 2 ^ 32 - 2 ^ 31.

(** A [size_t] of the 64-bit build. *)
Definition wrap_size_t (z : Z) : Z := z mod 2 ^ 64.

Lemma wrap_int_small z : INT_MIN <= z <= INT_MAX -> wrap_int z = z.
Proof.
  unfold wrap_int, INT_MIN, INT_MAX. intros H.
  rewrite Z.mod_small; lia.
Qed.

Lemma wrap_int_range z : INT_MIN <= wrap_int z <= INT_MAX.
Proof.
  unfold wrap_int, INT_MIN, INT_MAX.
  pose proof (Z.mod_pos_bound (z + 2 ^ 31) (2 ^ 32) ltac:(lia)). lia.
Qed.

(** ** State and a log of the calls made

    The methods of [vm.cpp] work on the fields of their [VM] and call into
    collaborators (locks, the object memory, channels).  A method is a
    function from the state to its result, the state after, and the calls
    it made, in order. *)

Definition Eff (S E A : Type) : Type := S -> A * S * list E.

Definition eret {S E A} (a : A) : Eff S E A := fun s => (a, s, []).

Definition ebind {S E A B} (m : Eff S E A) (k : A -> Eff S E B) : Eff S E B :=
  fun s =>
    let '(a, s1, l1) := m s in
    let '(b, s2, l2) := k a s1 in
    (b, s2, l1 ++ l2).

Definition gets {S E A} (f : S -> A) : Eff S E A := fun s => (f s, s, []).

Definition modify {S E} (f : S -> S) : Eff S E unit := fun s => (tt, f s, []).

Definition emit {S E} (e : E) : Eff S E unit := fun s => (tt, s, [e]).

Definition result_of {S E A} (r : A * S * list E) : A := fst (fst r).
Definition state_of {S E A} (r : A * S * list E) : S := snd (fst r).
Definition log_of {S E A} (r : A * S * list E) : list E := snd r.

(** The outcome [r] of a call made after the calls [pre]. *)
Definition preceded_by {S E A} (pre : list E) (r : A * S * list E)
    : A * S * list E :=
  (result_of r, state_of r, pre ++ log_of r).

Lemma ebind_gets {S E A B} (f : S -> A) (k : A -> Eff S E B) (s : S) :
  ebind (gets f) k s = k (f s) s.
Proof. unfold ebind, gets. now destruct (k (f s) s) as [[b s2] l2]. Qed.

Lemma ebind_modify {S E B} (f : S -> S) (k : unit -> Eff S E B) (s : S) :
  ebind (modify f) k s = k tt (f s).
Proof. unfold ebind, modify. now destruct (k tt (f s)) as [[b s2] l2]. Qed.

Lemma ebind_emit {S E B} (e : E) (k : unit -> Eff S E B) (s : S) :
  ebind (emit e) k s = preceded_by [e] (k tt s).
Proof. unfold ebind, emit. now destruct (k tt s) as [[b s2] l2]. Qed.

Lemma ebind_eret {S E A B} (a : A) (k : A -> Eff S E B) (s : S) :
  ebind (eret a) k s = k a s.
Proof. unfold ebind, eret. now destruct (k a s) as [[b s2] l2]. Qed.

Lemma preceded_by_app {S E A} (l1 l2 : list E) (r : A * S * list E) :
  preceded_by l1 (preceded_by l2 r) = preceded_by (l1 ++ l2) r.
Proof. unfold preceded_by. cbn. now rewrite app_assoc. Qed.

Declare Scope eff_scope.
Delimit Scope eff_scope with eff.
Notation "'let*' x := m 'in' k" := (ebind m (fun x => k))
  (at level 10, x name, m at level 100, k at level 200,
   format "'[v' 'let*'  x  :=  m  'in' '/' k ']'") : eff_scope.
Notation "m ;; k" := (ebind m (fun _ => k))
  (at level 100, k at level 200, right associativity) : eff_scope.

(** The kinds of object the sources name ([FixnumType], [String::type],
    [Tuple::type], [AutoloadType]); the others by their code. *)
Inductive object_type : Type :=
| FixnumType
| StringType
| TupleType
| AutoloadType
| OtherType (code : Z).

#[export] Instance object_type_eq_dec : EqDecision object_type.
Proof. solve_decision. Defined.

(** ** The allocator of the C runtime *)

Module Shotgun.

(** A tagged machine word: a heap address or an immediate. *)
Definition OBJECT : Type := Z.

(** Modelled from the spec: [struct rubinius_object] (oop.h is not among
    the sources).  The header is a record with named members: class
    reference, field count, flags, second flags word, zone tag and
    identity value; the field slots follow it and are kept in [slots]. *)
Record rubinius_object : Type := mk_header {
  klass : OBJECT;
  flags : Z;
  flags2 : Z;
  fields : Z;
  hash : Z;
  gc_zone : Z
}.

#[export] Instance rubinius_object_inhabited : Inhabited rubinius_object :=
  populate (mk_header 0 0 0 0 0 0).

(** Modelled from the spec: a heap space is a contiguous region with a
    bump cursor and a limit (heap.h is not among the sources). *)
Record rheap : Type := mk_heap {
  cursor : Z;
  limit : Z
}.

Record baker_gc : Type := mk_gc {
  current : rheap;
  next : rheap
}.

Record object_memory : Type := mk_om {
  gc : baker_gc;
  collect_now : Z;
  last_object_id : Z
}.

(** The store the allocator writes through its pointers: headers by
    object address, field slots by object address and index.  An address
    that was never written reads as whatever the map holds there, or the
    inhabitant. *)
Record world : Type := mk_world {
  om : object_memory;
  headers : gmap Z rubinius_object;
  slots : gmap (Z * Z) OBJECT
}.

(** State and abort: [None] is a failed [assert]. *)
Definition M (A : Type) : Type := world -> option (A * world).

Definition ret {A} (a : A) : M A := fun w => Some (a, w).
Definition bind {A B} (m : M A) (k : A -> M B) : M B :=
  fun w => match m w with
           | Some (a, w') => k a w'
           | None => None
           end.
Definition get : M world := fun w => Some (w, w).
Definition assert (b : bool) : M unit :=
  fun w => if b then Some (tt, w) else None.

Declare Scope om_scope.
Delimit Scope om_scope with om.
Notation "'let*' x := m 'in' k" := (bind m (fun x => k))
  (at level 10, x name, m at level 100, k at level 200,
   format "'[v' 'let*'  x  :=  m  'in' '/' k ']'") : om_scope.
Notation "m ;; k" := (bind m (fun _ => k))
  (at level 100, k at level 200, right associativity) : om_scope.
Local Open Scope om_scope.

Definition header_at (w : world) (obj : OBJECT) : rubinius_object :=
  headers w !!! obj.

Definition update_header (obj : OBJECT)
    (f : rubinius_object -> rubinius_object) : M unit :=
  fun w =>
    Some (tt, mk_world (om w) (<[obj := f (header_at w obj)]> (headers w))
                       (slots w)).

Definition update_om (f : object_memory -> object_memory) : M unit :=
  fun w => Some (tt, mk_world (f (om w)) (headers w) (slots w)).

(** Modelled from the spec: [heap_enough_space_p] and the bump of
    [heap_allocate] (heap.h is not among the sources). *)
Definition heap_enough_space_p (h : rheap) (size : Z) : bool :=
  cursor h + size <=? limit h.

Definition heap_allocate (h : rheap) (size : Z) : Z * rheap :=
  (cursor h, mk_heap (cursor h + size) (limit h)).

(** Modelled from the spec: [baker_gc_allocate] bumps the current space,
    [baker_gc_allocate_spilled] places the object directly into the next
    space (baker.h is not among the sources). *)
Definition baker_gc_allocate (size : Z) : M OBJECT :=
  fun w =>
    let g := gc (om w) in
    let '(addr, h) := heap_allocate (current g) size in
    Some (addr, mk_world (mk_om (mk_gc h (next g)) (collect_now (om w))
                                (last_object_id (om w)))
                         (headers w) (slots w)).

Definition baker_gc_allocate_spilled (size : Z) : M OBJECT :=
  fun w =>
    let g := gc (om w) in
    let '(addr, h) := heap_allocate (next g) size in
    Some (addr, mk_world (mk_om (mk_gc (current g) h) (collect_now (om w))
                                (last_object_id (om w)))
                         (headers w) (slots w)).

(** [SET_NUM_FIELDS], [NTH_FIELD], [rbs_set_field] and [GC_ZONE_SET] on the
    structured header. *)
Definition SET_NUM_FIELDS (obj : OBJECT) (n : Z) : M unit :=
  update_header obj (fun h =>
    mk_header (klass h) (flags h) (flags2 h) n (hash h) (gc_zone h)).

Definition NTH_FIELD (w : world) (obj : OBJECT) (i : Z) : OBJECT :=
  slots w !!! (obj, i).

Definition rbs_set_field (obj : OBJECT) (i : Z) (val : OBJECT) : M unit :=
  fun w =>
    Some (tt, mk_world (om w) (headers w) (<[(obj, i) := val]> (slots w))).

Definition GC_ZONE_SET (obj : OBJECT) (zone : Z) : M unit :=
  update_header obj (fun h =>
    mk_header (klass h) (flags h) (flags2 h) (fields h) (hash h) zone).

Definition set_klass (obj cls : OBJECT) : M unit :=
  update_header obj (fun h =>
    mk_header cls (flags h) (flags2 h) (fields h) (hash h) (gc_zone h)).

Definition set_flags (obj : OBJECT) (f : Z) : M unit :=
  update_header obj (fun h =>
    mk_header (klass h) f (flags2 h) (fields h) (hash h) (gc_zone h)).

Definition set_flags2 (obj : OBJECT) (f : Z) : M unit :=
  update_header obj (fun h =>
    mk_header (klass h) (flags h) f (fields h) (hash h) (gc_zone h)).

Definition set_hash (obj : OBJECT) (id : Z) : M unit :=
  update_header obj (fun h =>
    mk_header (klass h) (flags h) (flags2 h) (fields h) id (gc_zone h)).

(** [om->last_object_id++] on an [int]. *)
Definition post_increment_last_object_id : M Z :=
  fun w =>
    let o := om w in
    Some (last_object_id o,
          mk_world (mk_om (gc o) (collect_now o)
                          (wrap_int (last_object_id o + 1)))
                   (headers w) (slots w)).

(** [for(i = start; i < start + n; i++) body(i)] *)
Fixpoint for_loop (n : nat) (i : Z) (body : Z -> M unit) : M unit :=
  match n with
  | O => ret tt
  | S n' => body i ;; for_loop n' (i + 1) body
  end.

Section Allocator.

(** The constants and tag macros of oop.h, which is not among the
    sources: they stay parameters. *)
Variable HEADER_SIZE : Z.
Variable REFSIZE : Z.
Variable Qnil : OBJECT.
Variable GC_YOUNG_OBJECTS : Z.
Variable REFERENCE_P : OBJECT -> bool.
Variable FIXNUM_TO_INT : OBJECT -> Z.

Definition object_size (nfields : Z) : Z :=
  wrap_int ((HEADER_SIZE + nfields) * REFSIZE).

Definition _om_inline_new_object (cls : OBJECT) (nfields : Z) : M OBJECT :=
  let size := object_size nfields in
  let* w := get in
  let* obj :=
    (if negb (heap_enough_space_p (current (gc (om w))) size) then
       let* obj := baker_gc_allocate_spilled size in
       let* w1 := get in
       assert (heap_enough_space_p (next (gc (om w1))) size) ;;
       update_om (fun o => mk_om (gc o) (Z.lor (collect_now o) 1)
                                 (last_object_id o)) ;;
       ret obj
     else
       baker_gc_allocate size) in
  set_klass obj cls ;;
  SET_NUM_FIELDS obj nfields ;;
  (if negb (cls =? 0) && REFERENCE_P cls then
     let* w2 := get in
     let fl := NTH_FIELD w2 cls 8 in
     let f := FIXNUM_TO_INT fl in
     set_flags obj f
   else
     set_flags obj 0) ;;
  set_flags2 obj 0 ;;
  for_loop (Z.to_nat nfields) 0 (fun i => rbs_set_field obj i Qnil) ;;
  GC_ZONE_SET obj GC_YOUNG_OBJECTS ;;
  let* id := post_increment_last_object_id in
  set_hash obj id ;;
  ret obj.

(** "[cls] is a heap reference": the guard [cls && REFERENCE_P(cls)]. *)
Definition heap_reference (cls : OBJECT) : bool :=
  negb (cls =? 0) && REFERENCE_P cls.

(** The room [_om_inline_new_object] needs to reach its [return]: the
    current space takes the request, or the next space still passes
    [heap_enough_space_p] once the spilled object has been carved out. *)
Definition room_to_return (w : world) (size : Z) : bool :=
  let g := gc (om w) in
  heap_enough_space_p (current g) size
  || heap_enough_space_p (snd (heap_allocate (next g) size)) size.

(** The address the object is carved at. *)
Definition carved_at (w : world) (size : Z) : OBJECT :=
  let g := gc (om w) in
  if heap_enough_space_p (current g) size then cursor (current g)
  else cursor (next g).

Lemma update_header_spec (obj : OBJECT)
    (f : rubinius_object -> rubinius_object) (w : world) :
  exists w', update_header obj f w = Some (tt, w')
    /\ header_at w' obj = f (header_at w obj)
    /\ om w' = om w
    /\ slots w' = slots w.
Proof.
  eexists. split; [reflexivity|]. unfold header_at. cbn.
  now rewrite lookup_total_insert_eq.
Qed.

(** One header write of the sequence: name the store after it. *)
Ltac header_step w' Hh Ho Hs :=
  unfold bind at 1;
  lazymatch goal with
  | |- context [update_header ?o ?f ?w] =>
      let Hr := fresh "Hr" in
      destruct (update_header_spec o f w) as (w' & Hr & Hh & Ho & Hs);
      rewrite Hr; clear Hr; cbv iota beta
  end.

Lemma for_loop_set_field (obj v : OBJECT) (n : nat) :
  forall (i : Z) (w : world),
  exists w', for_loop n i (fun j => rbs_set_field obj j v) w = Some (tt, w')
    /\ om w' = om w
    /\ headers w' = headers w
    /\ (forall j, i <= j < i + Z.of_nat n -> slots w' !!! (obj, j) = v)
    /\ (forall j, j < i -> slots w' !! (obj, j) = slots w !! (obj, j)).
Proof.
  induction n as [|n IH]; intros i w.
  - exists w. cbn. repeat split; auto. intros j Hj. lia.
  - cbn [for_loop]. unfold bind at 1. cbn [rbs_set_field].
    destruct (IH (i + 1)
                (mk_world (om w) (headers w) (<[(obj, i) := v]> (slots w))))
      as (w' & Hrun & Hom & Hhd & Hin & Hout).
    exists w'. rewrite Hrun. cbn in Hom, Hhd, Hout.
    repeat split; auto.
    + intros j Hj. destruct (decide (j = i)) as [->|Hne].
      * rewrite lookup_total_alt, Hout by lia.
        now rewrite lookup_insert_eq.
      * apply Hin. lia.
    + intros j Hj. rewrite Hout by lia.
      apply lookup_insert_ne. intros [= ?]. lia.
Qed.

(** What a call that returns has done. *)
Lemma new_object_returned (cls : OBJECT) (nfields : Z) (w : world) :
  room_to_return w (object_size nfields) = true ->
  exists w',
    let obj := carved_at w (object_size nfields) in
    _om_inline_new_object cls nfields w = Some (obj, w')
    /\ header_at w' obj =
         mk_header cls
           (if heap_reference cls then FIXNUM_TO_INT (NTH_FIELD w cls 8) else 0)
           0 nfields (last_object_id (om w)) GC_YOUNG_OBJECTS
    /\ (forall i, 0 <= i < nfields -> NTH_FIELD w' obj i = Qnil)
    /\ last_object_id (om w') = wrap_int (last_object_id (om w) + 1)
    /\ collect_now (om w') =
         (if heap_enough_space_p (current (gc (om w))) (object_size nfields)
          then collect_now (om w) else Z.lor (collect_now (om w)) 1)
    /\ gc (om w') =
         (let g := gc (om w) in
          if heap_enough_space_p (current g) (object_size nfields)
          then mk_gc (snd (heap_allocate (current g) (object_size nfields)))
                     (next g)
          else mk_gc (current g)
                     (snd (heap_allocate (next g) (object_size nfields)))).
Proof.
  intros Hroom. unfold room_to_return in Hroom.
  set (size := object_size nfields) in *.
  unfold _om_inline_new_object, carved_at. fold size.
  fold (heap_reference cls).
  unfold bind at 1. cbn [get].
  (* carve the object: [w0] is the store once the space is bumped *)
  assert (Hcarve : exists w0,
    (if negb (heap_enough_space_p (current (gc (om w))) size)
     then
       let* obj := baker_gc_allocate_spilled size in
       let* w1 := get in
       assert (heap_enough_space_p (next (gc (om w1))) size) ;;
       update_om (fun o => mk_om (gc o) (Z.lor (collect_now o) 1)
                                 (last_object_id o)) ;;
       ret obj
     else baker_gc_allocate size) w
    = Some (if heap_enough_space_p (current (gc (om w))) size
            then cursor (current (gc (om w)))
            else cursor (next (gc (om w))), w0)
    /\ headers w0 = headers w /\ slots w0 = slots w
    /\ last_object_id (om w0) = last_object_id (om w)
    /\ collect_now (om w0) =
         (if heap_enough_space_p (current (gc (om w))) size
          then collect_now (om w) else Z.lor (collect_now (om w)) 1)
    /\ gc (om w0) =
         (if heap_enough_space_p (current (gc (om w))) size
          then mk_gc (snd (heap_allocate (current (gc (om w))) size))
                     (next (gc (om w)))
          else mk_gc (current (gc (om w)))
                     (snd (heap_allocate (next (gc (om w))) size)))).
  { destruct (heap_enough_space_p (current (gc (om w))) size) eqn:Hcur;
      cbn [negb orb] in *.
    - eexists. split; [reflexivity|]. cbn. auto.
    - cbn [heap_allocate snd] in Hroom.
      unfold bind, baker_gc_allocate_spilled, heap_allocate, get.
      cbn [om gc next]. rewrite Hroom.
      eexists. split; [reflexivity|]. cbn. auto. }
  destruct Hcarve as (w0 & Hrun0 & Hhd0 & Hsl0 & Hid0 & Hflag0 & Hgc0).
  unfold bind at 1. rewrite Hrun0. cbv iota beta. clear Hrun0.
  set (obj := if heap_enough_space_p (current (gc (om w))) size
              then cursor (current (gc (om w)))
              else cursor (next (gc (om w)))) in *.
  (* the header writes, one store after the other *)
  unfold set_klass, SET_NUM_FIELDS, set_flags2, GC_ZONE_SET, set_hash.
  header_step w1 Hh1 Ho1 Hs1.
  header_step w2 Hh2 Ho2 Hs2.
  rewrite Hh1 in Hh2. cbn [klass flags flags2 fields hash gc_zone] in Hh2.
  unfold bind at 1.
  assert (Hflags : exists w3,
    (if heap_reference cls
     then let* w2' := get in
          set_flags obj (FIXNUM_TO_INT (NTH_FIELD w2' cls 8))
     else set_flags obj 0) w2 = Some (tt, w3)
    /\ header_at w3 obj =
         mk_header cls
           (if heap_reference cls then FIXNUM_TO_INT (NTH_FIELD w cls 8) else 0)
           (flags2 (header_at w0 obj)) nfields (hash (header_at w0 obj))
           (gc_zone (header_at w0 obj))
    /\ om w3 = om w2 /\ slots w3 = slots w2).
  { destruct (heap_reference cls); unfold set_flags;
      [unfold bind at 1; cbn [get]|];
      match goal with
      | |- context [update_header ?o ?f ?w] =>
          destruct (update_header_spec o f w) as (w3 & Hr & Hh3 & Ho3 & Hs3)
      end;
      exists w3; rewrite Hr, Hh3, Hh2;
      cbn [klass flags flags2 fields hash gc_zone];
      unfold NTH_FIELD; rewrite ?Hs2, ?Hs1, ?Hsl0;
      repeat split; congruence. }
  destruct Hflags as (w3 & Hrun3 & Hh3 & Ho3 & Hs3).
  rewrite Hrun3. cbv iota beta. clear Hrun3.
  header_step w4 Hh4 Ho4 Hs4.
  rewrite Hh3 in Hh4. cbn [klass flags flags2 fields hash gc_zone] in Hh4.
  (* the slots *)
  unfold bind at 1.
  destruct (for_loop_set_field obj Qnil (Z.to_nat nfields) 0 w4)
    as (w5 & Hrun5 & Ho5 & Hhd5 & Hin5 & _).
  rewrite Hrun5. cbv iota beta. clear Hrun5.
  assert (Hh5 : header_at w5 obj = header_at w4 obj)
    by (unfold header_at; now rewrite Hhd5).
  rewrite Hh4 in Hh5.
  header_step w6 Hh6 Ho6 Hs6.
  rewrite Hh5 in Hh6. cbn [klass flags flags2 fields hash gc_zone] in Hh6.
  (* the identity *)
  unfold bind at 1. unfold post_increment_last_object_id at 1.
  cbv iota beta zeta.
  header_step w7 Hh7 Ho7 Hs7.
  cbn [om headers slots last_object_id collect_now gc] in Hh7, Ho7, Hs7.
  assert (Hh7' : header_at w7 obj =
    mk_header cls
      (if heap_reference cls then FIXNUM_TO_INT (NTH_FIELD w cls 8) else 0)
      0 nfields (last_object_id (om w)) GC_YOUNG_OBJECTS).
  { rewrite Hh7. unfold header_at. cbn [headers]. fold (header_at w6 obj).
    rewrite Hh6. cbn [klass flags flags2 fields hash gc_zone].
    now rewrite Ho6, Ho5, Ho4, Ho3, Ho2, Ho1, Hid0. }
  exists w7. split; [reflexivity|].
  split; [exact Hh7'|].
  rewrite Ho7, Ho6, Ho5, Ho4, Ho3, Ho2, Ho1.
  cbn [om headers slots last_object_id collect_now gc].
  rewrite Hid0, Hflag0, Hgc0.
  repeat split; auto.
  intros i Hi. unfold NTH_FIELD. rewrite Hs7, Hs6. apply Hin5. lia.
Qed.

(** Without that room the [assert] fails. *)
Lemma new_object_aborts (cls : OBJECT) (nfields : Z) (w : world) :
  room_to_return w (object_size nfields) = false ->
  _om_inline_new_object cls nfields w = None.
Proof.
  unfold room_to_return. intros Hroom.
  apply orb_false_iff in Hroom as [Hcur Hnext].
  unfold _om_inline_new_object.
  unfold bind at 1. cbn [get]. rewrite Hcur. cbn [negb].
  unfold bind at 1. unfold bind at 1.
  cbn [baker_gc_allocate_spilled heap_allocate].
  unfold bind at 1. cbn [get om gc next].
  cbn [heap_allocate snd] in Hnext. rewrite Hnext.
  reflexivity.
Qed.

Lemma new_object_inv (cls : OBJECT) (nfields : Z) (w w' : world)
    (obj : OBJECT) :
  _om_inline_new_object cls nfields w = Some (obj, w') ->
  room_to_return w (object_size nfields) = true
  /\ obj = carved_at w (object_size nfields)
  /\ hash (header_at w' obj) = last_object_id (om w)
  /\ last_object_id (om w') = wrap_int (last_object_id (om w) + 1).
Proof.
  intros Hcall.
  destruct (room_to_return w (object_size nfields)) eqn:Hroom.
  - destruct (new_object_returned cls nfields w Hroom)
      as (w1 & Hrun & Hhd & _ & Hid & _).
    rewrite Hrun in Hcall. injection Hcall as <- <-.
    rewrite Hhd. auto.
  - rewrite (new_object_aborts cls nfields w Hroom) in Hcall. discriminate.
Qed.

Lemma heap_reference_null : heap_reference 0 = false.
Proof. reflexivity. Qed.

(** ** Runs of the allocator *)

(** Modelled from the spec: a young collection ([baker_gc_collect] is not
    among the sources).  It copies the survivors, swaps the roles of the
    two spaces and resets the old one, so the spaces and the store after
    it are whatever the collector left; the identity counter belongs to
    the memory instance and is touched by [_om_inline_new_object] only. *)
Definition collect (after : baker_gc) (hd : gmap Z rubinius_object)
    (sl : gmap (Z * Z) OBJECT) : M unit :=
  fun w => Some (tt, mk_world (mk_om after 0 (last_object_id (om w))) hd sl).

Inductive request : Type :=
| Allocate (cls : OBJECT) (nfields : Z)
| Collect (after : baker_gc) (hd : gmap Z rubinius_object)
    (sl : gmap (Z * Z) OBJECT).

(** The identity values handed out, in the order of the allocations. *)
Fixpoint identities (rs : list request) : M (list Z) :=
  match rs with
  | [] => ret []
  | Allocate cls nfields :: rs' =>
      let* obj := _om_inline_new_object cls nfields in
      let* w := get in
      let* ids := identities rs' in
      ret (hash (header_at w obj) :: ids)
  | Collect after hd sl :: rs' =>
      collect after hd sl ;;
      identities rs'
  end.

Lemma identities_count_up (rs : list request) :
  forall (w w' : world) (ids : list Z),
  identities rs w = Some (ids, w') ->
  INT_MIN <= last_object_id (om w) ->
  last_object_id (om w) + Z.of_nat (length ids) <= INT_MAX ->
  last_object_id (om w') = last_object_id (om w) + Z.of_nat (length ids)
  /\ forall (i : nat) (a : Z),
       ids !! i = Some a -> a = last_object_id (om w) + Z.of_nat i.
Proof.
  induction rs as [|r rs IH]; intros w w' ids Hrun Hlo Hhi.
  - cbn in Hrun. injection Hrun as <- <-. cbn. split; [lia|].
    intros i a Hi. discriminate.
  - destruct r as [cls nfields | after hd sl]; cbn [identities] in Hrun.
    + unfold bind at 1 in Hrun.
      destruct (_om_inline_new_object cls nfields w) as [[obj w1]|] eqn:Hnew;
        [|discriminate].
      unfold bind at 1 in Hrun. cbn [get] in Hrun.
      unfold bind at 1 in Hrun.
      destruct (identities rs w1) as [[ids1 w2]|] eqn:Hrest; [|discriminate].
      cbn [ret] in Hrun. injection Hrun as <- <-.
      apply new_object_inv in Hnew as (_ & _ & Hhash & Hnext).
      cbn [length] in Hhi.
      rewrite wrap_int_small in Hnext by lia.
      destruct (IH w1 w2 ids1 Hrest) as [Hlast Hids]; [lia | lia |].
      split; [cbn [length]; lia|].
      intros [|i] a Hi; cbn in Hi.
      * injection Hi as <-. rewrite Hhash. lia.
      * apply Hids in Hi. lia.
    + unfold bind at 1 in Hrun. cbn [collect] in Hrun.
      exact (IH _ w' ids Hrun Hlo Hhi).
Qed.

(** C1.  Whenever [_om_inline_new_object cls nfields] has the room to
    return, it returns a record whose field count is [nfields], whose
    slots [0 .. nfields-1] all hold [Qnil], whose flags word is the fixnum
    value of field 8 of [cls] (as stored when the call was made) if [cls]
    is a heap reference and zero otherwise, in particular when [cls] is
    the null pointer, whose second flags word is zero and whose zone tag
    is [GC_YOUNG_OBJECTS]. *)
Theorem new_object_initialised (cls : OBJECT) (nfields : Z) (w : world) :
  room_to_return w (object_size nfields) = true ->
  exists (obj : OBJECT) (w' : world),
    _om_inline_new_object cls nfields w = Some (obj, w')
    /\ fields (header_at w' obj) = nfields
    /\ (forall i, 0 <= i < nfields -> NTH_FIELD w' obj i = Qnil)
    /\ flags (header_at w' obj) =
         (if heap_reference cls then FIXNUM_TO_INT (NTH_FIELD w cls 8) else 0)
    /\ (cls = 0 -> flags (header_at w' obj) = 0)
    /\ flags2 (header_at w' obj) = 0
    /\ gc_zone (header_at w' obj) = GC_YOUNG_OBJECTS
    /\ klass (header_at w' obj) = cls.
Proof.
  intros Hroom.
  destruct (new_object_returned cls nfields w Hroom)
    as (w' & Hrun & Hhd & Hslots & _).
  exists (carved_at w (object_size nfields)), w'.
  split; [exact Hrun|]. rewrite Hhd. cbn [fields flags flags2 gc_zone klass].
  repeat split; auto.
  intros ->. now rewrite heap_reference_null.
Qed.

(** A request that spills and leaves the next space with room for its
    size once more is placed at the cursor of the next space, which is
    bumped by the size; the current space is left as it was and bit 0 of
    [collect_now] is set. *)
Lemma spilled_object_in_next (cls : OBJECT) (nfields : Z) (w : world) :
  let size := object_size nfields in
  let g := gc (om w) in
  heap_enough_space_p (current g) size = false ->
  cursor (next g) + size + size <= limit (next g) ->
  exists w', _om_inline_new_object cls nfields w = Some (cursor (next g), w')
    /\ current (gc (om w')) = current g
    /\ next (gc (om w')) = mk_heap (cursor (next g) + size) (limit (next g))
    /\ Z.testbit (collect_now (om w')) 0 = true.
Proof.
  intros size g Hcur Hnext.
  assert (Hroom : room_to_return w size = true).
  { unfold room_to_return. fold g. rewrite Hcur. cbn.
    unfold heap_enough_space_p. cbn. apply Z.leb_le. lia. }
  destruct (new_object_returned cls nfields w Hroom)
    as (w' & Hrun & _ & _ & _ & Hflag & Hgc).
  fold size g in Hrun, Hflag, Hgc. unfold carved_at in Hrun.
  fold size g in Hrun. cbn zeta in Hgc.
  rewrite Hcur in Hrun, Hflag, Hgc.
  exists w'. split; [exact Hrun|]. rewrite Hgc, Hflag.
  cbn [current next heap_allocate snd].
  repeat split. rewrite Z.lor_spec. apply orb_true_r.
Qed.

(** A spilled request that the next space cannot take never returns. *)
Lemma spilled_without_room_aborts (cls : OBJECT) (nfields : Z) (w : world) :
  let size := object_size nfields in
  let g := gc (om w) in
  0 <= size ->
  heap_enough_space_p (current g) size = false ->
  heap_enough_space_p (next g) size = false ->
  _om_inline_new_object cls nfields w = None.
Proof.
  intros size g Hsize Hcur Hnext.
  apply new_object_aborts. unfold room_to_return. fold size g.
  rewrite Hcur. cbn. unfold heap_enough_space_p in *. cbn.
  apply Z.leb_gt. apply Z.leb_gt in Hnext. lia.
Qed.

(** The [assert] comes after the spilled object has been carved out of
    the next space, so it asks for the size a second time: a spilled
    request that fits the next space, but not twice, aborts. *)
Lemma spilled_fitting_once_aborts (cls : OBJECT) (nfields : Z) (w : world) :
  let size := object_size nfields in
  let g := gc (om w) in
  heap_enough_space_p (current g) size = false ->
  heap_enough_space_p (next g) size = true ->
  limit (next g) < cursor (next g) + size + size ->
  _om_inline_new_object cls nfields w = None.
Proof.
  intros size g Hcur Hfits Htwice.
  apply new_object_aborts. unfold room_to_return. fold size g.
  rewrite Hcur. cbn. unfold heap_enough_space_p. cbn.
  apply Z.leb_gt. lia.
Qed.

(** C5.  In a run of allocations against one memory instance, with
    collections in between, in which the [int] counter [last_object_id]
    does not overflow, the identity given to a later allocation is
    strictly greater than the identity given to an earlier one, and no
    identity is given twice. *)
Theorem identities_strictly_increase (rs : list request) (w : world)
    (ids : list Z) :
  fst <$> identities rs w = Some ids ->
  INT_MIN <= last_object_id (om w) ->
  last_object_id (om w) + Z.of_nat (length ids) <= INT_MAX ->
  (forall (i j : nat) (a b : Z),
     (i < j)%nat -> ids !! i = Some a -> ids !! j = Some b -> a < b)
  /\ NoDup ids.
Proof.
  intros Hrun Hlo Hhi.
  destruct (identities rs w) as [[ids' w']|] eqn:Hids; [|discriminate].
  cbn in Hrun. injection Hrun as ->.
  destruct (identities_count_up rs w w' ids Hids Hlo Hhi) as [_ Hcount].
  split.
  - intros i j a b Hij Ha Hb.
    rewrite (Hcount i a Ha), (Hcount j b Hb). lia.
  - apply NoDup_alt. intros i j a Ha Hb.
    pose proof (Hcount i a Ha). pose proof (Hcount j a Hb). lia.
Qed.

(** *** What an allocation leaves alone and where it puts the object *)

(** [w'] differs from [w] at most in the header of [obj] and in its slots
    [0 .. n-1]. *)
Definition same_outside (obj : OBJECT) (n : Z) (w w' : world) : Prop :=
  (forall a, a <> obj -> headers w' !! a = headers w !! a)
  /\ (forall a i, a <> obj \/ i < 0 \/ n <= i ->
        slots w' !! (a, i) = slots w !! (a, i)).

Lemma same_outside_refl (obj : OBJECT) (n : Z) (w : world) :
  same_outside obj n w w.
Proof. split; auto. Qed.

Lemma same_outside_trans (obj : OBJECT) (n : Z) (w1 w2 w3 : world) :
  same_outside obj n w1 w2 -> same_outside obj n w2 w3 ->
  same_outside obj n w1 w3.
Proof.
  intros [Hh1 Hs1] [Hh2 Hs2]. split.
  - intros a Ha. now rewrite Hh2, Hh1.
  - intros a i Hai. now rewrite Hs2, Hs1.
Qed.

(** A computation that, when it returns, has written inside [obj] only. *)
Definition writes_inside {A} (obj : OBJECT) (n : Z) (m : M A) : Prop :=
  forall w a w', m w = Some (a, w') -> same_outside obj n w w'.

Lemma writes_inside_bind {A B} (obj : OBJECT) (n : Z) (m : M A)
    (k : A -> M B) :
  writes_inside obj n m -> (forall a, writes_inside obj n (k a)) ->
  writes_inside obj n (bind m k).
Proof.
  intros Hm Hk w b w' Hrun. unfold bind in Hrun.
  destruct (m w) as [[a w1]|] eqn:Hmw; [|discriminate].
  eapply same_outside_trans; [exact (Hm _ _ _ Hmw)|exact (Hk _ _ _ _ Hrun)].
Qed.

Lemma writes_inside_ret {A} (obj : OBJECT) (n : Z) (a : A) :
  writes_inside obj n (ret a).
Proof. intros w b w' [= _ <-]. apply same_outside_refl. Qed.

Lemma writes_inside_get (obj : OBJECT) (n : Z) : writes_inside obj n get.
Proof. intros w b w' [= _ <-]. apply same_outside_refl. Qed.

Lemma writes_inside_update_header (obj : OBJECT) (n : Z)
    (f : rubinius_object -> rubinius_object) :
  writes_inside obj n (update_header obj f).
Proof.
  intros w b w' [= _ <-]. split; cbn; auto.
  intros a Ha. now apply lookup_insert_ne.
Qed.

Lemma writes_inside_update_om (obj : OBJECT) (n : Z)
    (f : object_memory -> object_memory) :
  writes_inside obj n (update_om f).
Proof. intros w b w' [= _ <-]. split; cbn; auto. Qed.

Lemma writes_inside_set_field (obj : OBJECT) (n i : Z) (v : OBJECT) :
  0 <= i < n -> writes_inside obj n (rbs_set_field obj i v).
Proof.
  intros Hi w b w' [= _ <-]. split; cbn; auto.
  intros a j Haj. apply lookup_insert_ne. intros [= -> ->]. lia.
Qed.

Lemma writes_inside_for_loop (obj v : OBJECT) (n : Z) (k : nat) :
  forall i, 0 <= i -> i + Z.of_nat k <= n ->
  writes_inside obj n (for_loop k i (fun j => rbs_set_field obj j v)).
Proof.
  induction k as [|k IH]; intros i Hlo Hhi; cbn [for_loop].
  - apply writes_inside_ret.
  - apply writes_inside_bind.
    + apply writes_inside_set_field. lia.
    + intros _. apply IH; lia.
Qed.

Lemma returned_value_bind {A} (o : OBJECT) (m : M A) (k : A -> M OBJECT) :
  (forall a w b w', k a w = Some (b, w') -> b = o) ->
  forall w b w', bind m k w = Some (b, w') -> b = o.
Proof.
  intros Hk w b w' Hrun. unfold bind in Hrun.
  destruct (m w) as [[a w1]|]; [|discriminate]. eauto.
Qed.

(** X1.  A call that returns has written the header of the new object
    and its slots [0 .. nfields-1], and nothing else: every other header
    and every other slot of the store is as it was. *)
Theorem new_object_writes_inside (cls : OBJECT) (nfields : Z) (w w' : world)
    (obj : OBJECT) :
  _om_inline_new_object cls nfields w = Some (obj, w') ->
  same_outside obj nfields w w'.
Proof.
  intros Hcall. unfold _om_inline_new_object in Hcall.
  unfold bind at 1 in Hcall. cbn [get] in Hcall.
  unfold bind at 1 in Hcall.
  match type of Hcall with
  | match ?carve w with _ => _ end = _ =>
      destruct (carve w) as [[o w0]|] eqn:Hcarve; [|discriminate]
  end.
  assert (Hstore : headers w0 = headers w /\ slots w0 = slots w).
  { destruct (heap_enough_space_p (current (gc (om w))) (object_size nfields));
      cbn [negb] in Hcarve.
    - injection Hcarve as _ <-. auto.
    - unfold bind, baker_gc_allocate_spilled, heap_allocate, get, assert,
        update_om, ret in Hcarve.
      cbn [om gc next] in Hcarve.
      destruct (heap_enough_space_p _ _); [|discriminate].
      injection Hcarve as _ <-. auto. }
  destruct Hstore as [Hhd Hsl].
  assert (Hobj : obj = o).
  { revert Hcall. generalize w0 obj w'.
    repeat (apply returned_value_bind; intros ?).
    now intros w1 b w2 [= <- _]. }
  subst o.
  assert (Hin : same_outside obj nfields w0 w').
  { refine ((_ : writes_inside obj nfields _) w0 obj w' Hcall).
    unfold set_klass, SET_NUM_FIELDS, set_flags2, GC_ZONE_SET, set_hash.
    apply writes_inside_bind; [apply writes_inside_update_header|intros _].
    apply writes_inside_bind; [apply writes_inside_update_header|intros _].
    apply writes_inside_bind.
    { destruct (negb (cls =? 0) && REFERENCE_P cls); unfold set_flags.
      - apply writes_inside_bind; [apply writes_inside_get|intros ?].
        apply writes_inside_update_header.
      - apply writes_inside_update_header. }
    intros _.
    apply writes_inside_bind; [apply writes_inside_update_header|intros _].
    apply writes_inside_bind.
    { destruct (Z.le_gt_cases 0 nfields) as [Hpos|Hneg].
      - apply writes_inside_for_loop; lia.
      - replace (Z.to_nat nfields) with 0%nat by lia.
        apply writes_inside_ret. }
    intros _.
    apply writes_inside_bind; [apply writes_inside_update_header|intros _].
    apply writes_inside_bind.
    { intros w1 b w2 [= _ <-]. split; cbn; auto. }
    intros id.
    apply writes_inside_bind; [apply writes_inside_update_header|intros _].
    apply writes_inside_ret. }
  destruct Hin as [Hh Hs]. split.
  - intros a Ha. now rewrite Hh, Hhd.
  - intros a i Hai. now rewrite Hs, Hsl.
Qed.

Lemma new_object_inv_spaces (cls : OBJECT) (nfields : Z) (w w' : world)
    (obj : OBJECT) :
  _om_inline_new_object cls nfields w = Some (obj, w') ->
  let size := object_size nfields in
  let g := gc (om w) in
  room_to_return w size = true
  /\ obj = carved_at w size
  /\ collect_now (om w') =
       (if heap_enough_space_p (current g) size
        then collect_now (om w) else Z.lor (collect_now (om w)) 1)
  /\ gc (om w') =
       (if heap_enough_space_p (current g) size
        then mk_gc (snd (heap_allocate (current g) size)) (next g)
        else mk_gc (current g) (snd (heap_allocate (next g) size))).
Proof.
  intros Hcall size g.
  destruct (room_to_return w size) eqn:Hroom.
  - destruct (new_object_returned cls nfields w Hroom)
      as (w1 & Hrun & _ & _ & _ & Hflag & Hgc).
    fold size in Hrun. rewrite Hrun in Hcall. injection Hcall as <- <-.
    auto.
  - rewrite (new_object_aborts cls nfields w Hroom) in Hcall. discriminate.
Qed.

(** X2.  The block of a returned object lies in the space it was carved
    from: it starts at the cursor that space had, ends at or below its
    limit, and the cursor now stands right behind it; the other space is
    as it was.  The object comes from the next space only if the current
    one could not take it. *)
Theorem new_object_placed (cls : OBJECT) (nfields : Z) (w w' : world)
    (obj : OBJECT) :
  let size := object_size nfields in
  let g := gc (om w) in
  let g' := gc (om w') in
  0 <= size ->
  _om_inline_new_object cls nfields w = Some (obj, w') ->
  (heap_enough_space_p (current g) size = true
   /\ obj = cursor (current g)
   /\ current g' = mk_heap (obj + size) (limit (current g))
   /\ obj + size <= limit (current g)
   /\ next g' = next g)
  \/ (heap_enough_space_p (current g) size = false
      /\ obj = cursor (next g)
      /\ next g' = mk_heap (obj + size) (limit (next g))
      /\ obj + size <= limit (next g)
      /\ current g' = current g).
Proof.
  intros size g g' Hsize Hcall.
  destruct (new_object_inv_spaces cls nfields w w' obj Hcall)
    as (Hroom & Hobj & _ & Hgc).
  fold size g in Hroom, Hobj, Hgc. subst g'. rewrite Hgc.
  unfold carved_at in Hobj. fold g in Hobj.
  unfold room_to_return in Hroom. fold g in Hroom.
  destruct (heap_enough_space_p (current g) size) eqn:Hcur.
  - left. subst obj. cbn. repeat split.
    unfold heap_enough_space_p in Hcur. now apply Z.leb_le in Hcur.
  - right. subst obj. cbn in *. repeat split.
    unfold heap_enough_space_p in Hroom. cbn in Hroom.
    apply Z.leb_le in Hroom. lia.
Qed.

(** X3.  Two allocations in a row that the current space both serves are
    adjacent: the second object starts where the block of the first one
    ends, so the two blocks neither overlap nor leave a gap. *)
Theorem consecutive_objects_adjacent (cls1 cls2 : OBJECT) (n1 n2 : Z)
    (w w1 w2 : world) (obj1 obj2 : OBJECT) :
  heap_enough_space_p (current (gc (om w))) (object_size n1) = true ->
  _om_inline_new_object cls1 n1 w = Some (obj1, w1) ->
  heap_enough_space_p (current (gc (om w1))) (object_size n2) = true ->
  _om_inline_new_object cls2 n2 w1 = Some (obj2, w2) ->
  obj2 = obj1 + object_size n1.
Proof.
  intros Hfit1 Hcall1 Hfit2 Hcall2.
  destruct (new_object_inv_spaces cls1 n1 w w1 obj1 Hcall1)
    as (_ & Hobj1 & _ & Hgc1).
  destruct (new_object_inv_spaces cls2 n2 w1 w2 obj2 Hcall2)
    as (_ & Hobj2 & _ & _).
  unfold carved_at in Hobj1, Hobj2.
  rewrite Hfit1 in Hobj1, Hgc1. rewrite Hfit2 in Hobj2.
  rewrite Hgc1 in Hobj2. cbn in Hobj2. lia.
Qed.

(** X4.  An allocation that the current space serves leaves [collect_now]
    as it was; one that spills sets bit 0 of it.  Either way no bit that
    was set is cleared. *)
Theorem collect_now_only_raised (cls : OBJECT) (nfields : Z) (w w' : world)
    (obj : OBJECT) :
  _om_inline_new_object cls nfields w = Some (obj, w') ->
  (heap_enough_space_p (current (gc (om w))) (object_size nfields) = true ->
     collect_now (om w') = collect_now (om w))
  /\ (heap_enough_space_p (current (gc (om w))) (object_size nfields) = false ->
      Z.testbit (collect_now (om w')) 0 = true)
  /\ (forall n, Z.testbit (collect_now (om w)) n = true ->
        Z.testbit (collect_now (om w')) n = true).
Proof.
  intros Hcall.
  destruct (new_object_inv_spaces cls nfields w w' obj Hcall)
    as (_ & _ & Hflag & _).
  cbv zeta in Hflag. rewrite Hflag.
  destruct (heap_enough_space_p (current (gc (om w))) (object_size nfields)).
  - repeat split; auto. discriminate.
  - split; [discriminate|]. split.
    + intros _. rewrite Z.lor_spec. apply orb_true_r.
    + intros n Hn. rewrite Z.lor_spec, Hn. reflexivity.
Qed.

End Allocator.

(** *** A 32-bit build

    Values for the parameters, to run the allocator on: four header
    words of four bytes, references tagged [00] and fixnums shifted by
    two bits. *)
Module Build32.
Definition HEADER_SIZE : Z := 4.
Definition REFSIZE : Z := 4.
Definition Qnil : OBJECT := 14.
Definition GC_YOUNG_OBJECTS : Z := 1.
Definition REFERENCE_P (v : OBJECT) : bool := Z.land v 3 =? 0.
Definition FIXNUM_TO_INT (v : OBJECT) : Z := Z.shiftr v 2.

Definition new_object : OBJECT -> Z -> M OBJECT :=
  _om_inline_new_object HEADER_SIZE REFSIZE Qnil GC_YOUNG_OBJECTS
    REFERENCE_P FIXNUM_TO_INT.

(** A memory instance with 100 bytes left in the current space and an
    empty next space; a class lives at address 400 and holds the fixnum
    5 in field 8. *)
Definition fresh : world :=
  mk_world (mk_om (mk_gc (mk_heap 1000 1100) (mk_heap 2000 2100)) 0 7)
           ∅ {[ (400, 8) := 21 ]}.

(** The current space is full and the next space has room for exactly
    one object of two fields (24 bytes). *)
Definition tight : world :=
  mk_world (mk_om (mk_gc (mk_heap 1100 1100) (mk_heap 2000 2024)) 0 7)
           ∅ ∅.
End Build32.

Example new_object_fresh :
  (fun r => (fst r, header_at (snd r) (fst r))) <$>
    Build32.new_object 400 3 Build32.fresh
  = Some (1000, mk_header 400 5 0 3 7 1).
Proof. vm_compute. reflexivity. Qed.

Lemma new_object_initialised_witness :
  room_to_return Build32.fresh
    (object_size Build32.HEADER_SIZE Build32.REFSIZE 3) = true
  /\ exists (obj : OBJECT) (w' : world),
      Build32.new_object 400 3 Build32.fresh = Some (obj, w')
      /\ fields (header_at w' obj) = 3
      /\ (forall i, 0 <= i < 3 -> NTH_FIELD w' obj i = Build32.Qnil)
      /\ flags (header_at w' obj) =
           (if heap_reference Build32.REFERENCE_P 400
            then Build32.FIXNUM_TO_INT (NTH_FIELD Build32.fresh 400 8) else 0)
      /\ (400 = 0 -> flags (header_at w' obj) = 0)
      /\ flags2 (header_at w' obj) = 0
      /\ gc_zone (header_at w' obj) = Build32.GC_YOUNG_OBJECTS
      /\ klass (header_at w' obj) = 400.
Proof.
  split; [reflexivity|].
  apply (new_object_initialised Build32.HEADER_SIZE Build32.REFSIZE
           Build32.Qnil Build32.GC_YOUNG_OBJECTS Build32.REFERENCE_P
           Build32.FIXNUM_TO_INT 400 3 Build32.fresh).
  reflexivity.
Defined.

(** C2, at the failing input: the request spills, fits the next space
    (2000 + 24 <= 2024), and the call aborts on its [assert] instead of
    returning the record. *)
Theorem spilled_fitting_request_aborts :
  heap_enough_space_p (current (gc (om Build32.tight))) 24 = false
  /\ heap_enough_space_p (next (gc (om Build32.tight))) 24 = true
  /\ object_size Build32.HEADER_SIZE Build32.REFSIZE 2 = 24
  /\ Build32.new_object 0 2 Build32.tight = None.
Proof. vm_compute. repeat split. Qed.

Definition two_allocations : list request :=
  [ Allocate 400 3;
    Collect (mk_gc (mk_heap 2000 2100) (mk_heap 1000 1100)) ∅
            {[ (400, 8) := 21 ]};
    Allocate 0 1 ].

Lemma identities_strictly_increase_witness :
  fst <$> identities Build32.HEADER_SIZE Build32.REFSIZE Build32.Qnil
            Build32.GC_YOUNG_OBJECTS Build32.REFERENCE_P
            Build32.FIXNUM_TO_INT two_allocations Build32.fresh
    = Some [7; 8]
  /\ INT_MIN <= 7
  /\ 7 + 2 <= INT_MAX
  /\ 7 < 8
  /\ NoDup [7; 8].
Proof.
  assert (Hrun : fst <$> identities Build32.HEADER_SIZE Build32.REFSIZE
            Build32.Qnil Build32.GC_YOUNG_OBJECTS Build32.REFERENCE_P
            Build32.FIXNUM_TO_INT two_allocations Build32.fresh
          = Some [7; 8]) by (vm_compute; reflexivity).
  assert (Hlo : INT_MIN <= 7) by (vm_compute; discriminate).
  assert (Hhi : 7 + 2 <= INT_MAX) by (vm_compute; discriminate).
  split; [exact Hrun|]. split; [exact Hlo|]. split; [exact Hhi|].
  destruct (identities_strictly_increase Build32.HEADER_SIZE Build32.REFSIZE
              Build32.Qnil Build32.GC_YOUNG_OBJECTS Build32.REFERENCE_P
              Build32.FIXNUM_TO_INT two_allocations Build32.fresh [7; 8]
              Hrun Hlo Hhi) as [Hlt Hnodup].
  split; [|exact Hnodup].
  exact (Hlt 0%nat 1%nat 7 8 (le_n 1) eq_refl eq_refl).
Defined.

(** C5 as the sentence has it: in every run, whatever the counter
    started from, a later identity is above an earlier one. *)
Definition identities_always_increase : Prop :=
  forall (rs : list request) (w : world) (ids : list Z),
    fst <$> identities Build32.HEADER_SIZE Build32.REFSIZE Build32.Qnil
              Build32.GC_YOUNG_OBJECTS Build32.REFERENCE_P
              Build32.FIXNUM_TO_INT rs w = Some ids ->
    forall (i j : nat) (a b : Z),
      (i < j)%nat -> ids !! i = Some a -> ids !! j = Some b -> a < b.

(** A memory instance whose counter has reached [INT_MAX]. *)
Definition worn : world :=
  mk_world (mk_om (mk_gc (mk_heap 1000 1100) (mk_heap 2000 2100)) 0
                  2147483647)
           ∅ ∅.

(** C5 fails as stated: once [last_object_id] is [INT_MAX] the increment
    wraps, and the next object gets a smaller identity than the one
    before it. *)
Lemma identity_wraps_at_int_max :
  last_object_id (om worn) = INT_MAX
  /\ fst <$> identities Build32.HEADER_SIZE Build32.REFSIZE Build32.Qnil
               Build32.GC_YOUNG_OBJECTS Build32.REFERENCE_P
               Build32.FIXNUM_TO_INT [Allocate 0 1; Allocate 0 1] worn
     = Some [2147483647; -2147483648]
  /\ ~ identities_always_increase.
Proof.
  assert (Hrun : fst <$> identities Build32.HEADER_SIZE Build32.REFSIZE
            Build32.Qnil Build32.GC_YOUNG_OBJECTS Build32.REFERENCE_P
            Build32.FIXNUM_TO_INT [Allocate 0 1; Allocate 0 1] worn
          = Some [2147483647; -2147483648]) by (vm_compute; reflexivity).
  split; [reflexivity|]. split; [exact Hrun|].
  intros Hclaim.
  specialize (Hclaim _ _ _ Hrun 0%nat 1%nat 2147483647 (-2147483648)
                (le_n 1) eq_refl eq_refl).
  lia.
Qed.

(** The store after the first and after the second of two allocations
    on [Build32.fresh], and after the spill on a full current space. *)
Abbreviation new32 :=
  (_om_inline_new_object Build32.HEADER_SIZE Build32.REFSIZE Build32.Qnil
     Build32.GC_YOUNG_OBJECTS Build32.REFERENCE_P Build32.FIXNUM_TO_INT).

Definition after_of (r : option (OBJECT * world)) : world :=
  match r with
  | Some (_, w) => w
  | None => Build32.fresh
  end.

Definition fresh1 : world := after_of (new32 400 3 Build32.fresh).
Definition fresh2 : world := after_of (new32 0 1 fresh1).

Definition roomy : world :=
  mk_world (mk_om (mk_gc (mk_heap 1100 1100) (mk_heap 2000 2100)) 4 7)
           ∅ ∅.
Definition roomy1 : world := after_of (new32 0 2 roomy).

Lemma new_object_writes_inside_witness :
  new32 400 3 Build32.fresh = Some (1000, fresh1)
  /\ same_outside 1000 3 Build32.fresh fresh1.
Proof.
  assert (Hcall : new32 400 3 Build32.fresh = Some (1000, fresh1))
    by (vm_compute; reflexivity).
  split; [exact Hcall|].
  exact (new_object_writes_inside Build32.HEADER_SIZE Build32.REFSIZE
           Build32.Qnil Build32.GC_YOUNG_OBJECTS Build32.REFERENCE_P
           Build32.FIXNUM_TO_INT 400 3 Build32.fresh fresh1 1000 Hcall).
Defined.

Lemma new_object_placed_witness :
  0 <= object_size Build32.HEADER_SIZE Build32.REFSIZE 2
  /\ new32 0 2 roomy = Some (2000, roomy1)
  /\ next (gc (om roomy1)) = mk_heap 2024 2100
  /\ current (gc (om roomy1)) = mk_heap 1100 1100.
Proof.
  assert (Hsize : 0 <= object_size Build32.HEADER_SIZE Build32.REFSIZE 2)
    by (vm_compute; discriminate).
  assert (Hcall : new32 0 2 roomy = Some (2000, roomy1))
    by (vm_compute; reflexivity).
  split; [exact Hsize|]. split; [exact Hcall|].
  destruct (new_object_placed Build32.HEADER_SIZE Build32.REFSIZE
              Build32.Qnil Build32.GC_YOUNG_OBJECTS Build32.REFERENCE_P
              Build32.FIXNUM_TO_INT 0 2 roomy roomy1 2000 Hsize Hcall)
    as [(Hfit & _) | (_ & _ & Hnext & _ & Hcur)].
  - vm_compute in Hfit. discriminate.
  - split; [exact Hnext | exact Hcur].
Defined.

Lemma consecutive_objects_adjacent_witness :
  new32 400 3 Build32.fresh = Some (1000, fresh1)
  /\ new32 0 1 fresh1 = Some (1028, fresh2)
  /\ 1028 = 1000 + object_size Build32.HEADER_SIZE Build32.REFSIZE 3.
Proof.
  assert (Hcall1 : new32 400 3 Build32.fresh = Some (1000, fresh1))
    by (vm_compute; reflexivity).
  assert (Hcall2 : new32 0 1 fresh1 = Some (1028, fresh2))
    by (vm_compute; reflexivity).
  split; [exact Hcall1|]. split; [exact Hcall2|].
  refine (consecutive_objects_adjacent Build32.HEADER_SIZE Build32.REFSIZE
            Build32.Qnil Build32.GC_YOUNG_OBJECTS Build32.REFERENCE_P
            Build32.FIXNUM_TO_INT 400 0 3 1 Build32.fresh fresh1 fresh2
            1000 1028 _ Hcall1 _ Hcall2); vm_compute; reflexivity.
Defined.

Lemma collect_now_only_raised_witness :
  new32 0 2 roomy = Some (2000, roomy1)
  /\ collect_now (om roomy) = 4
  /\ Z.testbit (collect_now (om roomy1)) 0 = true
  /\ Z.testbit (collect_now (om roomy1)) 2 = true.
Proof.
  assert (Hcall : new32 0 2 roomy = Some (2000, roomy1))
    by (vm_compute; reflexivity).
  split; [exact Hcall|]. split; [reflexivity|].
  destruct (collect_now_only_raised Build32.HEADER_SIZE Build32.REFSIZE
              Build32.Qnil Build32.GC_YOUNG_OBJECTS Build32.REFERENCE_P
              Build32.FIXNUM_TO_INT 0 2 roomy roomy1 2000 Hcall)
    as (_ & Hspill & Hkeep).
  split; [apply Hspill; reflexivity | apply Hkeep; reflexivity].
Defined.

End Shotgun.

(** ** The per-thread allocation entry points of [vm.cpp] *)

Module VMAlloc.

Local Open Scope eff_scope.

(** A class pointer. *)
Definition Class : Type := Z.

Inductive gc_zone : Type :=
| UnspecifiedZone
| MatureObjectZone
| YoungObjectZone.

(** What [init_header] writes. *)
Record ObjectHeader : Type := mk_object_header {
  klass : Class;
  zone : gc_zone;
  type_id : object_type
}.

(** Modelled from the spec: the slab (gc/slab.hpp is not among the
    sources) is a thread-owned view, cursor and limit, into a region;
    [allocate] bumps the cursor if room remains and gives the null address
    otherwise. *)
Record Slab : Type := mk_slab {
  slab_cursor : Z;
  slab_limit : Z
}.

Definition Slab_allocate (bytes : Z) (s : Slab) : option Z * Slab :=
  if slab_cursor s + bytes <=? slab_limit s
  then (Some (slab_cursor s), mk_slab (slab_cursor s + bytes) (slab_limit s))
  else (None, s).

Section Entry.

(** The shared object memory ([object_memory.hpp] is not among the
    sources): its state is opaque, and its three entry points used here
    stay parameters.  Each may change the object memory as it likes;
    [refill_slab] also hands back the slab. *)
Variable ObjectMemory : Type.
Variable large_object_threshold : ObjectMemory -> Z.
Variable om_new_object_typed_enduring_dirty :
  Class -> Z -> object_type -> ObjectMemory -> option Z * ObjectMemory.
Variable om_new_object_typed_dirty :
  Class -> Z -> object_type -> ObjectMemory -> option Z * ObjectMemory.
Variable om_refill_slab : Slab -> ObjectMemory -> bool * Slab * ObjectMemory.

(** Layout constants of the missing headers. *)
Variable sizeof_String : Z.
Variable Tuple_fields_offset : Z.
Variable sizeof_pointer : Z.
Variable G_string : Class.
Variable G_tuple : Class.

Record VM : Type := mk_vm {
  local_slab_ : Slab;
  om : ObjectMemory;
  headers : gmap Z ObjectHeader;
  full_size_ : gmap Z Z
}.

Inductive Call : Type :=
| SlabAllocate (bytes : Z)
| RefillSlab
| EnduringDirty (cls : Class) (size : Z) (type : object_type)
| SlowPathDirty (cls : Class) (size : Z) (type : object_type).

(** [local_slab().allocate(bytes)] *)
Definition local_slab_allocate (bytes : Z) : Eff VM Call (option Z) :=
  fun vm =>
    let '(obj, slab) := Slab_allocate bytes (local_slab_ vm) in
    (obj, mk_vm slab (om vm) (headers vm) (full_size_ vm),
     [SlabAllocate bytes]).

(** [shared.om->refill_slab(&state, local_slab())] *)
Definition refill_slab : Eff VM Call bool :=
  fun vm =>
    let '(ok, slab, m) := om_refill_slab (local_slab_ vm) (om vm) in
    (ok, mk_vm slab m (headers vm) (full_size_ vm), [RefillSlab]).

(** [om->new_object_typed_enduring_dirty(&state, cls, size, type)] *)
Definition enduring_dirty (cls : Class) (size : Z) (type : object_type)
    : Eff VM Call (option Z) :=
  fun vm =>
    let '(obj, m) := om_new_object_typed_enduring_dirty cls size type (om vm) in
    (obj, mk_vm (local_slab_ vm) m (headers vm) (full_size_ vm),
     [EnduringDirty cls size type]).

(** [om->new_object_typed_dirty(&state, cls, size, type)], the slow path *)
Definition slow_path_dirty (cls : Class) (size : Z) (type : object_type)
    : Eff VM Call (option Z) :=
  fun vm =>
    let '(obj, m) := om_new_object_typed_dirty cls size type (om vm) in
    (obj, mk_vm (local_slab_ vm) m (headers vm) (full_size_ vm),
     [SlowPathDirty cls size type]).

Definition init_header (obj : Z) (cls : Class) (z : gc_zone)
    (type : object_type) : Eff VM Call unit :=
  modify (fun vm =>
    mk_vm (local_slab_ vm) (om vm)
          (<[obj := mk_object_header cls z type]> (headers vm))
          (full_size_ vm)).

Definition set_full_size (obj : Z) (bytes : Z) : Eff VM Call unit :=
  modify (fun vm =>
    mk_vm (local_slab_ vm) (om vm) (headers vm)
          (<[obj := bytes]> (full_size_ vm))).

(** [VM::new_object_typed_dirty] ([RBX_GC_STRESS] is off). *)
Definition new_object_typed_dirty (cls : Class) (size : Z)
    (type : object_type) : Eff VM Call (option Z) :=
  let* threshold := gets (fun vm => large_object_threshold (om vm)) in
  if threshold <? size then
    enduring_dirty cls size type
  else
    let* obj := local_slab_allocate size in
    match obj with
    | None =>
        let* refilled := refill_slab in
        let* obj := (if refilled then local_slab_allocate size
                     else eret None) in
        match obj with
        | None => slow_path_dirty cls size type
        | Some a => init_header a cls YoungObjectZone type ;; eret (Some a)
        end
    | Some a => init_header a cls YoungObjectZone type ;; eret (Some a)
    end.

(** [VM::new_young_string_dirty] *)
Definition new_young_string_dirty : Eff VM Call (option Z) :=
  let* str := local_slab_allocate sizeof_String in
  match str with
  | None =>
      let* refilled := refill_slab in
      let* str := (if refilled then local_slab_allocate sizeof_String
                   else eret None) in
      match str with
      | None => eret None
      | Some a => init_header a G_string YoungObjectZone StringType ;;
                  eret (Some a)
      end
  | Some a => init_header a G_string YoungObjectZone StringType ;;
              eret (Some a)
  end.

(** [Tuple::fields_offset + (sizeof(Object* ) * fields)] in [size_t]. *)
Definition tuple_bytes (nfields : Z) : Z :=
  wrap_size_t (Tuple_fields_offset + wrap_size_t (sizeof_pointer * nfields)).

(** [VM::new_young_tuple_dirty] *)
Definition new_young_tuple_dirty (nfields : Z) : Eff VM Call (option Z) :=
  let bytes := tuple_bytes nfields in
  let* threshold := gets (fun vm => large_object_threshold (om vm)) in
  if threshold <? bytes then
    eret None
  else
    let* tup := local_slab_allocate bytes in
    match tup with
    | None =>
        let* refilled := refill_slab in
        let* tup := (if refilled then local_slab_allocate bytes
                     else eret None) in
        match tup with
        | None => eret None
        | Some a => init_header a G_tuple YoungObjectZone TupleType ;;
                    set_full_size a bytes ;;
                    eret (Some a)
        end
    | Some a => init_header a G_tuple YoungObjectZone TupleType ;;
                set_full_size a bytes ;;
                eret (Some a)
    end.

(** How many times the slab was asked. *)
Definition is_slab_allocate (c : Call) : bool :=
  match c with
  | SlabAllocate _ => true
  | _ => false
  end.

Definition slab_attempts (l : list Call) : nat :=
  length (filter (fun c => is_slab_allocate c = true) l).

(** The slab cannot take [bytes]. *)
Definition exhausted (vm : VM) (bytes : Z) : Prop :=
  fst (Slab_allocate bytes (local_slab_ vm)) = None.

(** C6 as the sentence has it: on exhaustion the slab is asked a second
    time, whatever [refill_slab] reported. *)
Definition retried_exactly_once : Prop :=
  forall (vm : VM) (cls : Class) (size : Z) (type : object_type),
    size <= large_object_threshold (om vm) ->
    exhausted vm size ->
    slab_attempts (log_of (new_object_typed_dirty cls size type vm)) = 2%nat.

Lemma Slab_allocate_some (bytes : Z) (s : Slab) (a : Z) :
  fst (Slab_allocate bytes s) = Some a ->
  Slab_allocate bytes s = (Some a, mk_slab (a + bytes) (slab_limit s))
  /\ a = slab_cursor s
  /\ a + bytes <= slab_limit s.
Proof.
  unfold Slab_allocate.
  destruct (slab_cursor s + bytes <=? slab_limit s) eqn:Hroom; cbn;
    [|discriminate].
  intros [= <-]. apply Z.leb_le in Hroom. auto.
Qed.

Lemma Slab_allocate_none (bytes : Z) (s : Slab) :
  fst (Slab_allocate bytes s) = None ->
  Slab_allocate bytes s = (None, s) /\ slab_limit s < slab_cursor s + bytes.
Proof.
  unfold Slab_allocate.
  destruct (slab_cursor s + bytes <=? slab_limit s) eqn:Hroom; cbn;
    [discriminate|].
  apply Z.leb_gt in Hroom. auto.
Qed.

(** The object the fast path hands out: carved at the slab cursor, the
    cursor bumped, the header written for the young zone. *)
Definition carved (vm : VM) (slab : Slab) (m : ObjectMemory) (a size : Z)
    (cls : Class) (type : object_type) : VM :=
  mk_vm (mk_slab (a + size) (slab_limit slab)) m
        (<[a := mk_object_header cls YoungObjectZone type]> (headers vm))
        (full_size_ vm).

(** C6, as amended.  Above the threshold the slab is not touched and the
    object comes from [new_object_typed_enduring_dirty].  Otherwise the
    slab is asked once; if it has room its cursor is bumped.  If it has
    none, [refill_slab] is called once; the slab is asked a second time
    only if [refill_slab] reported success; and whenever no object was
    obtained, by a failed refill or by a failed second attempt, the
    request goes to the slow path [new_object_typed_dirty] of the object
    memory. *)
Theorem typed_dirty_paths (vm : VM) (cls : Class) (size : Z)
    (type : object_type) :
  let r := new_object_typed_dirty cls size type vm in
  (large_object_threshold (om vm) < size ->
     r = enduring_dirty cls size type vm
     /\ local_slab_ (state_of r) = local_slab_ vm
     /\ log_of r = [EnduringDirty cls size type])
  /\ (size <= large_object_threshold (om vm) ->
      (forall a, fst (Slab_allocate size (local_slab_ vm)) = Some a ->
         r = (Some a, carved vm (local_slab_ vm) (om vm) a size cls type,
              [SlabAllocate size])
         /\ a = slab_cursor (local_slab_ vm))
      /\ (exhausted vm size ->
          forall ok slab1 om1,
          om_refill_slab (local_slab_ vm) (om vm) = (ok, slab1, om1) ->
          (ok = false ->
             r = preceded_by [SlabAllocate size; RefillSlab]
                   (slow_path_dirty cls size type
                      (mk_vm slab1 om1 (headers vm) (full_size_ vm)))
             /\ slab_attempts (log_of r) = 1%nat)
          /\ (ok = true ->
              slab_attempts (log_of r) = 2%nat
              /\ (forall a, fst (Slab_allocate size slab1) = Some a ->
                     r = (Some a, carved vm slab1 om1 a size cls type,
                          [SlabAllocate size; RefillSlab; SlabAllocate size]))
              /\ (fst (Slab_allocate size slab1) = None ->
                     r = preceded_by
                           [SlabAllocate size; RefillSlab; SlabAllocate size]
                           (slow_path_dirty cls size type
                              (mk_vm slab1 om1 (headers vm)
                                     (full_size_ vm))))))).
Proof.
  intros r. split.
  - intros Hbig. apply Z.ltb_lt in Hbig. subst r.
    unfold new_object_typed_dirty. rewrite ebind_gets, Hbig.
    unfold enduring_dirty, state_of, log_of.
    destruct (om_new_object_typed_enduring_dirty cls size type (om vm))
      as [obj m]. cbn. auto.
  - intros Hsmall. apply Z.ltb_ge in Hsmall.
    assert (Hr : r =
      ebind (local_slab_allocate size) (fun obj =>
        match obj with
        | None =>
            let* refilled := refill_slab in
            let* obj := (if refilled then local_slab_allocate size
                         else eret None) in
            match obj with
            | None => slow_path_dirty cls size type
            | Some a => init_header a cls YoungObjectZone type ;; eret (Some a)
            end
        | Some a => init_header a cls YoungObjectZone type ;; eret (Some a)
        end) vm).
    { subst r. unfold new_object_typed_dirty.
      now rewrite ebind_gets, Hsmall. }
    clearbody r. split.
    + intros a Ha. apply Slab_allocate_some in Ha as (Ha & Hcur & _).
      subst r. unfold ebind, local_slab_allocate. rewrite Ha.
      cbn. unfold carved. auto.
    + unfold exhausted. intros Hex ok slab1 om1 Hrefill.
      apply Slab_allocate_none in Hex as [Hex _].
      unfold ebind at 1, local_slab_allocate at 1 in Hr. rewrite Hex in Hr.
      cbv beta iota zeta in Hr.
      unfold ebind at 1, refill_slab at 1 in Hr.
      cbn [local_slab_ om headers full_size_] in Hr. rewrite Hrefill in Hr.
      cbv beta iota zeta in Hr.
      split.
      * intros ->. rewrite ebind_eret in Hr. subst r.
        unfold slow_path_dirty.
        cbn [local_slab_ om headers full_size_].
        destruct (om_new_object_typed_dirty cls size type om1) as [obj m].
        cbn. auto.
      * intros ->. unfold ebind, local_slab_allocate in Hr.
        cbn [local_slab_ om headers full_size_] in Hr.
        destruct (Slab_allocate size slab1) as [[a|] slab2] eqn:Hretry;
          cbn [fst].
        -- assert (Hfst : fst (Slab_allocate size slab1) = Some a)
             by now rewrite Hretry.
           apply Slab_allocate_some in Hfst as (Heq & _ & _).
           rewrite Hretry in Heq. injection Heq as ->.
           subst r. cbn. split; [reflexivity|]. split; [|discriminate].
           now intros a' [= <-].
        -- assert (Hfst : fst (Slab_allocate size slab1) = None)
             by now rewrite Hretry.
           apply Slab_allocate_none in Hfst as (Heq & _).
           rewrite Hretry in Heq. injection Heq as ->.
           subst r. unfold slow_path_dirty.
           cbn [local_slab_ om headers full_size_].
           destruct (om_new_object_typed_dirty cls size type om1) as [obj m].
           cbn. split; [reflexivity|]. split; [discriminate|]. auto.
Qed.

(** C10.  A tuple whose byte size is above the large-object threshold is
    not routed anywhere: the entry point answers null, leaves the VM as it
    was and calls nobody. *)
Theorem young_tuple_above_threshold (vm : VM) (nfields : Z) :
  large_object_threshold (om vm) < tuple_bytes nfields ->
  new_young_tuple_dirty nfields vm = (None, vm, []).
Proof.
  intros Hbig. apply Z.ltb_lt in Hbig.
  unfold new_young_tuple_dirty. now rewrite ebind_gets, Hbig.
Qed.

(** *** The string and tuple entry points, and what the fast path
    leaves alone *)

Definition slab_call (bytes : Z) (c : Call) : Prop :=
  c = SlabAllocate bytes \/ c = RefillSlab.

(** The slab after [refill_slab], if the refill reported success. *)
Definition refilled_slab (vm : VM) : option Slab :=
  let '(ok, slab, _) := om_refill_slab (local_slab_ vm) (om vm) in
  if ok then Some slab else None.

(** No room in the slab, and none after the refill either. *)
Definition slab_gives_up (vm : VM) (bytes : Z) : Prop :=
  exhausted vm bytes
  /\ match refilled_slab vm with
     | Some slab => fst (Slab_allocate bytes slab) = None
     | None => True
     end.

Lemma Slab_allocate_cases (bytes : Z) (s : Slab) :
  (exists a, Slab_allocate bytes s = (Some a, mk_slab (a + bytes) (slab_limit s)))
  \/ Slab_allocate bytes s = (None, s).
Proof.
  unfold Slab_allocate.
  destruct (slab_cursor s + bytes <=? slab_limit s); eauto.
Qed.

(** The three outcomes of asking the slab, refilling it and asking it
    again. *)
Ltac slab_cases vm bytes :=
  let a := fresh "a" in
  let Hfirst := fresh "Hfirst" in
  let ok := fresh "ok" in
  let s2 := fresh "s2" in
  let m := fresh "m" in
  let Hrefill := fresh "Hrefill" in
  let Hretry := fresh "Hretry" in
  unfold ebind, local_slab_allocate, refill_slab, init_header, set_full_size,
    modify, eret, gets, slab_gives_up, exhausted, refilled_slab, result_of,
    state_of, log_of;
  destruct (Slab_allocate_cases bytes (local_slab_ vm)) as [[a Hfirst]|Hfirst];
  rewrite Hfirst; cbn [local_slab_ om headers full_size_ fst snd];
  [ | destruct (om_refill_slab (local_slab_ vm) (om vm)) as [[ok s2] m]
        eqn:Hrefill;
      destruct ok; cbn [local_slab_ om headers full_size_ fst snd];
      [ destruct (Slab_allocate_cases bytes s2) as [[a Hretry]|Hretry];
        rewrite Hretry; cbn [local_slab_ om headers full_size_ fst snd]
      | ] ].

(** X5.  [new_young_string_dirty] works on the slab only: it calls
    neither the slow path nor the enduring allocator.  It answers null
    exactly when the slab has no room and the refill fails or the
    refilled slab has no room either; an address it answers carries the
    header of a young [String]. *)
Theorem young_string_slab_only (vm : VM) :
  let r := new_young_string_dirty vm in
  Forall (slab_call sizeof_String) (log_of r)
  /\ (result_of r = None <-> slab_gives_up vm sizeof_String)
  /\ (forall a, result_of r = Some a ->
        headers (state_of r) !! a =
          Some (mk_object_header G_string YoungObjectZone StringType)).
Proof.
  unfold new_young_string_dirty. cbv zeta.
  slab_cases vm sizeof_String; unfold slab_call;
    (split; [repeat constructor; auto|]); split;
    try (intros b [= <-]; cbn; apply lookup_insert_eq);
    try discriminate;
    try (split; [discriminate | intros [Hex Hno]; discriminate]);
    tauto.
Qed.

(** X6.  [new_young_tuple_dirty] works on the slab only.  It answers null
    exactly when the byte size is above the threshold or the slab gives
    up; an address it answers carries the header of a young [Tuple], has
    its [full_size_] set to the byte size, and that size is within the
    threshold. *)
Theorem young_tuple_slab_only (vm : VM) (nfields : Z) :
  let r := new_young_tuple_dirty nfields vm in
  let bytes := tuple_bytes nfields in
  Forall (slab_call bytes) (log_of r)
  /\ (result_of r = None <->
      large_object_threshold (om vm) < bytes \/ slab_gives_up vm bytes)
  /\ (forall a, result_of r = Some a ->
        headers (state_of r) !! a =
          Some (mk_object_header G_tuple YoungObjectZone TupleType)
        /\ full_size_ (state_of r) !! a = Some bytes
        /\ bytes <= large_object_threshold (om vm)).
Proof.
  unfold new_young_tuple_dirty. cbv zeta.
  set (bytes := tuple_bytes nfields). rewrite ebind_gets.
  destruct (large_object_threshold (om vm) <? bytes) eqn:Hbig.
  - apply Z.ltb_lt in Hbig. cbn. split; [constructor|].
    split; [tauto|]. discriminate.
  - apply Z.ltb_ge in Hbig.
    slab_cases vm bytes; unfold slab_call;
      (split; [repeat constructor; auto|]); split;
      try (intros b [= <-]; cbn; rewrite !lookup_insert_eq; auto);
      try discriminate;
      try (split; [discriminate
                  | intros [Hover | [Hex Hno]]; [lia | discriminate]]);
      tauto.
Qed.

(** X7.  [new_object_typed_dirty] does not fail on its own: if neither
    allocator of the object memory ever answers null, it never answers
    null. *)
Theorem typed_dirty_never_null (vm : VM) (cls : Class) (size : Z)
    (type : object_type) :
  (forall c s t m, fst (om_new_object_typed_enduring_dirty c s t m) <> None) ->
  (forall c s t m, fst (om_new_object_typed_dirty c s t m) <> None) ->
  result_of (new_object_typed_dirty cls size type vm) <> None.
Proof.
  intros Henduring Hslow. unfold new_object_typed_dirty.
  rewrite ebind_gets.
  destruct (large_object_threshold (om vm) <? size).
  - unfold enduring_dirty, result_of.
    specialize (Henduring cls size type (om vm)).
    destruct (om_new_object_typed_enduring_dirty cls size type (om vm)).
    exact Henduring.
  - unfold slow_path_dirty.
    slab_cases vm size; try discriminate;
      specialize (Hslow cls size type m);
      destruct (om_new_object_typed_dirty cls size type m); exact Hslow.
Qed.

(** The calls that hand the request to the object memory. *)
Definition is_om_call (c : Call) : bool :=
  match c with
  | EnduringDirty _ _ _ | SlowPathDirty _ _ _ => true
  | _ => false
  end.

(** X8.  [new_object_typed_dirty] writes a header exactly when the slab
    served the request: then it writes one header, that of the address it
    answers (class, young zone, type), and the slab cursor stands [size]
    behind that address.  When the request went to the enduring or to the
    slow-path allocator it writes no header at all.  It never touches a
    [full_size_]. *)
Theorem typed_dirty_writes_own_header (vm : VM) (cls : Class) (size : Z)
    (type : object_type) :
  let r := new_object_typed_dirty cls size type vm in
  full_size_ (state_of r) = full_size_ vm
  /\ (existsb is_om_call (log_of r) = true ->
      headers (state_of r) = headers vm)
  /\ (existsb is_om_call (log_of r) = false ->
      exists a, result_of r = Some a
        /\ headers (state_of r) =
             <[a := mk_object_header cls YoungObjectZone type]> (headers vm)
        /\ slab_cursor (local_slab_ (state_of r)) = a + size).
Proof.
  unfold new_object_typed_dirty. cbv zeta. rewrite ebind_gets.
  destruct (large_object_threshold (om vm) <? size).
  - unfold enduring_dirty, result_of, state_of, log_of.
    destruct (om_new_object_typed_enduring_dirty cls size type (om vm)).
    cbn. repeat split; auto. discriminate.
  - unfold slow_path_dirty.
    slab_cases vm size;
      try (destruct (om_new_object_typed_dirty cls size type m); cbn;
           repeat split; auto; discriminate);
      cbn; (split; [reflexivity|]); (split; [discriminate|]);
      intros _; eexists; repeat split.
Qed.

End Entry.

(** *** A small object memory to run the entry points on

    The object memory is the next free mature address; the threshold is
    2700 bytes; [refill_slab] either fails and leaves the slab alone, or
    hands out the region 4096..8192. *)
Module Sample.
Definition threshold (m : Z) : Z := 2700.
Definition mature (cls : Class) (size : Z) (type : object_type) (m : Z)
    : option Z * Z := (Some m, m + size).
Definition refill_fails (slab : Slab) (m : Z) : bool * Slab * Z :=
  (false, slab, m).
Definition refill_works (slab : Slab) (m : Z) : bool * Slab * Z :=
  (true, mk_slab 4096 8192, m).

(** A thread as its constructor leaves it: [local_slab_.refill(0, 0)]. *)
Definition started : VM Z := mk_vm Z (mk_slab 0 0) 100000 ∅ ∅.
End Sample.

Example typed_dirty_refilled :
  new_object_typed_dirty Z Sample.threshold Sample.mature Sample.mature
    Sample.refill_works 7 32 StringType Sample.started
  = (Some 4096,
     mk_vm Z (mk_slab 4128 8192) 100000
       {[ 4096 := mk_object_header 7 YoungObjectZone StringType ]} ∅,
     [SlabAllocate 32; RefillSlab; SlabAllocate 32]).
Proof. vm_compute. reflexivity. Qed.

Example typed_dirty_large :
  new_object_typed_dirty Z Sample.threshold Sample.mature Sample.mature
    Sample.refill_works 7 3000 StringType Sample.started
  = (Some 100000, mk_vm Z (mk_slab 0 0) 103000 ∅ ∅,
     [EnduringDirty 7 3000 StringType]).
Proof. vm_compute. reflexivity. Qed.

(** C6 fails as stated: the slab of a fresh thread is exhausted,
    [refill_slab] reports failure, and the request goes to the slow path
    with the slab asked once, not twice. *)
Lemma no_retry_after_failed_refill :
  exhausted Z Sample.started 32
  /\ new_object_typed_dirty Z Sample.threshold Sample.mature Sample.mature
       Sample.refill_fails 7 32 StringType Sample.started
     = (Some 100000, mk_vm Z (mk_slab 0 0) 100032 ∅ ∅,
        [SlabAllocate 32; RefillSlab; SlowPathDirty 7 32 StringType])
  /\ ~ retried_exactly_once Z Sample.threshold Sample.mature Sample.mature
        Sample.refill_fails.
Proof.
  split; [reflexivity|]. split; [vm_compute; reflexivity|].
  intros Hclaim.
  specialize (Hclaim Sample.started 7 32 StringType).
  assert (H1 : 32 <= Sample.threshold (om Z Sample.started))
    by (vm_compute; discriminate).
  assert (H2 : exhausted Z Sample.started 32) by reflexivity.
  specialize (Hclaim H1 H2). vm_compute in Hclaim. discriminate.
Qed.

Lemma typed_dirty_paths_witness :
  exhausted Z Sample.started 32
  /\ Sample.refill_works (local_slab_ Z Sample.started) (om Z Sample.started)
     = (true, mk_slab 4096 8192, 100000)
  /\ new_object_typed_dirty Z Sample.threshold Sample.mature Sample.mature
       Sample.refill_works 7 32 StringType Sample.started
     = (Some 4096,
        carved Z Sample.started (mk_slab 4096 8192) 100000 4096 32 7 StringType,
        [SlabAllocate 32; RefillSlab; SlabAllocate 32]).
Proof.
  split; [reflexivity|]. split; [reflexivity|].
  destruct (typed_dirty_paths Z Sample.threshold Sample.mature Sample.mature
              Sample.refill_works Sample.started 7 32 StringType)
    as [_ Hsmall].
  assert (Hle : 32 <= Sample.threshold (om Z Sample.started))
    by (vm_compute; discriminate).
  destruct (Hsmall Hle) as [_ Hexhausted].
  destruct (Hexhausted eq_refl true (mk_slab 4096 8192) 100000 eq_refl)
    as [_ Hrefilled].
  destruct (Hrefilled eq_refl) as (_ & Hretry & _).
  exact (Hretry 4096 eq_refl).
Defined.

Lemma typed_dirty_never_null_witness :
  (forall c s t m, fst (Sample.mature c s t m) <> None)
  /\ result_of (new_object_typed_dirty Z Sample.threshold Sample.mature
                  Sample.mature Sample.refill_fails 7 32 StringType
                  Sample.started) <> None.
Proof.
  assert (Hmature : forall c s t m, fst (Sample.mature c s t m) <> None)
    by discriminate.
  split; [exact Hmature|].
  exact (typed_dirty_never_null Z Sample.threshold Sample.mature Sample.mature
           Sample.refill_fails Sample.started 7 32 StringType
           Hmature Hmature).
Defined.

Lemma young_tuple_above_threshold_witness :
  Sample.threshold (om Z Sample.started) < tuple_bytes 32 8 1000
  /\ new_young_tuple_dirty Z Sample.threshold Sample.refill_works 32 8 200
       1000 Sample.started
     = (None, Sample.started, []).
Proof.
  split; [reflexivity|].
  apply (young_tuple_above_threshold Z Sample.threshold Sample.refill_works
           32 8 200 Sample.started 1000).
  reflexivity.
Defined.

Example young_tuple_small :
  new_young_tuple_dirty Z Sample.threshold Sample.refill_works 32 8 200
    3 Sample.started
  = (Some 4096,
     mk_vm Z (mk_slab 4152 8192) 100000
       {[ 4096 := mk_object_header 200 YoungObjectZone TupleType ]}
       {[ 4096 := 56 ]},
     [SlabAllocate 56; RefillSlab; SlabAllocate 56]).
Proof. vm_compute. reflexivity. Qed.

End VMAlloc.

(** ** Object references *)

(** Modelled from the spec: an object reference (oop.hpp is not among the
    sources) is a heap reference or an immediate: a fixnum, a symbol or
    one of the special values. *)
Inductive Object : Type :=
| Reference (addr : Z)
| Fixnum (n : Z)
| Symbol (index : Z)
| cNil
| cTrue
| cFalse
| cUndef.

#[export] Instance Object_eq_dec : EqDecision Object.
Proof. solve_decision. Defined.

Definition reference_p (obj : Object) : bool :=
  match obj with
  | Reference _ => true
  | _ => false
  end.

Definition fixnum_p (obj : Object) : bool :=
  match obj with
  | Fixnum _ => true
  | _ => false
  end.

Definition nil_p (obj : Object) : bool :=
  match obj with
  | cNil => true
  | _ => false
  end.

(** ** [type_assert] *)

Module TypeCheck.

Local Open Scope eff_scope.
Local Open Scope string_scope.

(** What [Exception::type_error] is given. *)
Record TypeError : Type := mk_type_error {
  expected : object_type;
  actual : Object;
  message : string
}.

Section Assert.

(** The thread state behind [STATE], the type tag in the header of a heap
    object, the description of a value and the raising of the exception
    belong to headers that are not among the sources. *)
Variable STATE : Type.
Variable type_id : STATE -> Object -> object_type.
Variable to_string : STATE -> Object -> string.
Variable raise_type_error : TypeError -> STATE -> STATE.

(** [Exception::type_error(state, type, obj, msg)] *)
Definition Exception_type_error (type : object_type) (obj : Object)
    (msg : string) : Eff STATE TypeError unit :=
  let e := mk_type_error type obj msg in
  modify (raise_type_error e) ;;
  emit e.

Definition type_assert (obj : Object) (type : object_type) (reason : string)
    : Eff STATE TypeError unit :=
  let* differs := gets (fun state =>
    (reference_p obj && negb (bool_decide (type_id state obj = type)))
    || (bool_decide (type = FixnumType) && negb (fixnum_p obj))) in
  if differs then
    let* description := gets (fun state => to_string state obj) in
    let msg := reason ++ ": " ++ description in
    Exception_type_error type obj msg
  else
    eret tt.

(** The two ways an object fails the check. *)
Definition mismatch (state : STATE) (obj : Object) (type : object_type)
    : Prop :=
  (reference_p obj = true /\ type_id state obj <> type)
  \/ (type = FixnumType /\ fixnum_p obj = false).

Lemma mismatch_test (state : STATE) (obj : Object) (type : object_type) :
  (reference_p obj && negb (bool_decide (type_id state obj = type)))
  || (bool_decide (type = FixnumType) && negb (fixnum_p obj)) = true
  <-> mismatch state obj type.
Proof.
  unfold mismatch.
  rewrite orb_true_iff, !andb_true_iff, !negb_true_iff.
  rewrite bool_decide_eq_false, bool_decide_eq_true. tauto.
Qed.

(** C9.  [type_assert] signals a type error exactly when the object is a
    heap reference whose type tag differs from the expected one, or the
    expected type is [FixnumType] and the object is not a fixnum.  The
    error carries the expected type, the object and the message
    [reason: description]; otherwise the call returns with the state as it
    was and nothing signalled. *)
Theorem type_assert_signals (state : STATE) (obj : Object)
    (type : object_type) (reason : string) :
  let r := type_assert obj type reason state in
  (log_of r <> [] <-> mismatch state obj type)
  /\ (mismatch state obj type ->
      r = (tt, raise_type_error
                 (mk_type_error type obj
                    (reason ++ ": " ++ to_string state obj)) state,
           [mk_type_error type obj (reason ++ ": " ++ to_string state obj)]))
  /\ (~ mismatch state obj type -> r = (tt, state, [])).
Proof.
  intros r. subst r. unfold type_assert. rewrite ebind_gets.
  pose proof (mismatch_test state obj type) as Htest.
  destruct ((reference_p obj && negb (bool_decide (type_id state obj = type)))
            || (bool_decide (type = FixnumType) && negb (fixnum_p obj)))
    eqn:Hcond.
  - assert (Hm : mismatch state obj type) by now apply Htest.
    rewrite ebind_gets. unfold Exception_type_error.
    rewrite ebind_modify. cbn.
    repeat split; auto; try discriminate. tauto.
  - assert (Hm : ~ mismatch state obj type).
    { intros Hm. apply Htest in Hm. discriminate. }
    cbn. repeat split; auto; try tauto.
Qed.

Lemma type_assert_passes (state : STATE) (obj : Object) (type : object_type)
    (reason : string) :
  ~ mismatch state obj type ->
  type_assert obj type reason state = (tt, state, []).
Proof.
  intros Hm. unfold type_assert. rewrite ebind_gets.
  destruct ((reference_p obj && negb (bool_decide (type_id state obj = type)))
            || (bool_decide (type = FixnumType) && negb (fixnum_p obj)))
    eqn:Hcond; [|reflexivity].
  apply mismatch_test in Hcond. contradiction.
Qed.

Lemma type_assert_fails (state : STATE) (obj : Object) (type : object_type)
    (reason : string) :
  mismatch state obj type ->
  log_of (type_assert obj type reason state) =
    [mk_type_error type obj (reason ++ ": " ++ to_string state obj)].
Proof.
  intros Hm. apply mismatch_test in Hm.
  unfold type_assert. rewrite ebind_gets, Hm, ebind_gets.
  unfold Exception_type_error. now rewrite ebind_modify.
Qed.

(** X9.  An immediate (anything that is not a heap reference) passes the
    check for every expected type other than [FixnumType]: [nil] is
    accepted where a [Tuple] is expected.  When [FixnumType] is expected
    the check looks at [fixnum_p] only: a fixnum passes and everything
    else, whatever its type tag, is rejected. *)
Theorem type_assert_immediates (state : STATE) (obj : Object)
    (type : object_type) (reason : string) :
  (reference_p obj = false -> type <> FixnumType ->
     type_assert obj type reason state = (tt, state, []))
  /\ (fixnum_p obj = true ->
      type_assert obj FixnumType reason state = (tt, state, []))
  /\ (fixnum_p obj = false ->
      log_of (type_assert obj FixnumType reason state) =
        [mk_type_error FixnumType obj
           (reason ++ ": " ++ to_string state obj)]).
Proof.
  split; [|split].
  - intros Himm Htype. apply type_assert_passes.
    intros [[Href _] | [Hfix _]]; congruence.
  - intros Hfix. apply type_assert_passes.
    intros [[Href _] | [_ Hnot]]; [|congruence].
    destruct obj; discriminate.
  - intros Hnot. apply type_assert_fails. right. auto.
Qed.

End Assert.

(** A heap of two objects to run the check on: types by address. *)
Definition tags (state : gmap Z object_type) (obj : Object) : object_type :=
  match obj with
  | Reference a => default (OtherType 0) (state !! a)
  | _ => OtherType 0
  end.

Definition describe (state : gmap Z object_type) (obj : Object) : string :=
  match obj with
  | Reference _ => "#<Object>"
  | Fixnum _ => "#<Fixnum>"
  | Symbol _ => "#<Symbol>"
  | cNil => "nil"
  | cTrue => "true"
  | cFalse => "false"
  | cUndef => "undef"
  end.

Definition two_objects : gmap Z object_type :=
  {[ 64 := StringType; 128 := TupleType ]}.

Example string_is_not_a_tuple :
  log_of (type_assert _ tags describe (fun _ st => st)
            (Reference 64) TupleType "expected a tuple" two_objects)
  = [mk_type_error TupleType (Reference 64) "expected a tuple: #<Object>"].
Proof. vm_compute. reflexivity. Qed.

Example nil_is_not_a_fixnum :
  log_of (type_assert _ tags describe (fun _ st => st)
            cNil FixnumType "expected a fixnum" two_objects)
  = [mk_type_error FixnumType cNil "expected a fixnum: nil"].
Proof. vm_compute. reflexivity. Qed.

Example nil_passes_for_a_tuple :
  type_assert _ tags describe (fun _ st => st)
    cNil TupleType "expected a tuple" two_objects
  = (tt, two_objects, []).
Proof. vm_compute. reflexivity. Qed.

Lemma type_assert_signals_witness :
  mismatch _ tags two_objects (Reference 64) TupleType
  /\ type_assert _ tags describe (fun _ st => st)
       (Reference 64) TupleType "expected a tuple" two_objects
     = (tt, two_objects,
        [mk_type_error TupleType (Reference 64)
           "expected a tuple: #<Object>"]).
Proof.
  assert (Hm : mismatch _ tags two_objects (Reference 64) TupleType).
  { left. split; [reflexivity|]. vm_compute. discriminate. }
  split; [exact Hm|].
  destruct (type_assert_signals _ tags describe (fun _ st => st) two_objects
              (Reference 64) TupleType "expected a tuple") as (_ & Hsignal & _).
  exact (Hsignal Hm).
Defined.

Lemma type_assert_immediates_witness :
  reference_p cNil = false
  /\ TupleType <> FixnumType
  /\ type_assert _ tags describe (fun _ st => st)
       cNil TupleType "expected a tuple" two_objects
     = (tt, two_objects, [])
  /\ fixnum_p (Reference 64) = false
  /\ log_of (type_assert _ tags describe (fun _ st => st)
               (Reference 64) FixnumType "expected a fixnum" two_objects)
     = [mk_type_error FixnumType (Reference 64)
          "expected a fixnum: #<Object>"].
Proof.
  assert (Hne : TupleType <> FixnumType) by discriminate.
  destruct (type_assert_immediates _ tags describe (fun _ st => st)
              two_objects cNil TupleType "expected a tuple")
    as (Hpass & _ & _).
  destruct (type_assert_immediates _ tags describe (fun _ st => st)
              two_objects (Reference 64) TupleType "expected a fixnum")
    as (_ & _ & Hfail).
  split; [reflexivity|]. split; [exact Hne|].
  split; [exact (Hpass eq_refl Hne)|].
  split; [reflexivity|]. exact (Hfail eq_refl).
Defined.

End TypeCheck.

(** ** [VM::checkpoint] and the coordinator *)

Module Nexus.

Local Open Scope eff_scope.

(** Modelled from the spec: the coordinator (thread_nexus.hpp is not among
    the sources) holds one global stop flag and a coordinator lock, here
    with the id of the thread that holds it. *)
Record ThreadNexus : Type := mk_nexus {
  stop_ : bool;
  lock_ : option Z
}.

Section Checkpoint.

(** The object memory and its [collect_maybe] are not among the sources. *)
Variable ObjectMemory : Type.
Variable om_collect_maybe : ObjectMemory -> ObjectMemory.

Record Runtime : Type := mk_runtime {
  thread_nexus_ : ThreadNexus;
  om : ObjectMemory
}.

Inductive Event : Type :=
| Locked (vm : Z)
| Yielded (vm : Z)
| Collected
| Unlocked.

(** Modelled from the spec: [stop_p] reads the global stop flag. *)
Definition stop_p : Eff Runtime Event bool :=
  gets (fun rt => stop_ (thread_nexus_ rt)).

(** Modelled from the spec: [lock_or_yield] attempts to acquire the
    coordinator lock; it answers true to the thread that acquires it, and
    otherwise yields and answers false, so that the thread tries again at
    its next checkpoint. *)
Definition lock_or_yield (vm : Z) : Eff Runtime Event bool :=
  let* owner := gets (fun rt => lock_ (thread_nexus_ rt)) in
  match owner with
  | None =>
      modify (fun rt =>
        mk_runtime (mk_nexus (stop_ (thread_nexus_ rt)) (Some vm)) (om rt)) ;;
      emit (Locked vm) ;;
      eret true
  | Some _ =>
      emit (Yielded vm) ;;
      eret false
  end.

(** Modelled from the spec: [unlock] releases the coordinator lock,
    clearing the stop flag. *)
Definition unlock : Eff Runtime Event unit :=
  modify (fun rt => mk_runtime (mk_nexus false None) (om rt)) ;;
  emit Unlocked.

(** [om->collect_maybe(state)] *)
Definition collect_maybe : Eff Runtime Event unit :=
  modify (fun rt => mk_runtime (thread_nexus_ rt) (om_collect_maybe (om rt))) ;;
  emit Collected.

(** [VM::checkpoint], called by the thread [vm]. *)
Definition checkpoint (vm : Z) : Eff Runtime Event unit :=
  let* stop := stop_p in
  if stop then
    let* acquired := lock_or_yield vm in
    if acquired then
      collect_maybe ;;
      unlock
    else
      eret tt
  else
    eret tt.

(** C8.  With the stop flag clear, [checkpoint] has no effect.  With the
    stop flag set, the thread tries the coordinator lock: the thread that
    acquires it performs the collection and then releases the lock, which
    clears the stop flag; a thread that finds the lock taken yields,
    collects nothing and leaves the flag and the lock as they were. *)
Theorem checkpoint_cases (vm : Z) (rt : Runtime) :
  (stop_ (thread_nexus_ rt) = false -> checkpoint vm rt = (tt, rt, []))
  /\ (stop_ (thread_nexus_ rt) = true ->
      lock_ (thread_nexus_ rt) = None ->
      checkpoint vm rt =
        (tt, mk_runtime (mk_nexus false None) (om_collect_maybe (om rt)),
         [Locked vm; Collected; Unlocked]))
  /\ (stop_ (thread_nexus_ rt) = true ->
      forall owner, lock_ (thread_nexus_ rt) = Some owner ->
      checkpoint vm rt = (tt, rt, [Yielded vm])).
Proof.
  unfold checkpoint, stop_p. rewrite ebind_gets.
  repeat split.
  - now intros ->.
  - intros -> Hfree. unfold lock_or_yield, ebind, gets.
    now rewrite Hfree.
  - intros -> owner Hheld. unfold lock_or_yield, ebind, gets.
    rewrite Hheld. cbn. now destruct rt.
Qed.

End Checkpoint.

(** The object memory as the number of collections run so far. *)
Example checkpoint_collects :
  checkpoint nat S 1 (mk_runtime nat (mk_nexus true None) 0%nat)
  = (tt, mk_runtime nat (mk_nexus false None) 1%nat,
     [Locked 1; Collected; Unlocked]).
Proof. reflexivity. Qed.

Example checkpoint_yields :
  checkpoint nat S 1 (mk_runtime nat (mk_nexus true (Some 2)) 0%nat)
  = (tt, mk_runtime nat (mk_nexus true (Some 2)) 0%nat, [Yielded 1]).
Proof. reflexivity. Qed.

Lemma checkpoint_cases_witness :
  checkpoint nat S 1 (mk_runtime nat (mk_nexus false None) 0%nat)
    = (tt, mk_runtime nat (mk_nexus false None) 0%nat, [])
  /\ checkpoint nat S 1 (mk_runtime nat (mk_nexus true None) 0%nat)
    = (tt, mk_runtime nat (mk_nexus false None) 1%nat,
       [Locked 1; Collected; Unlocked])
  /\ checkpoint nat S 1 (mk_runtime nat (mk_nexus true (Some 2)) 0%nat)
    = (tt, mk_runtime nat (mk_nexus true (Some 2)) 0%nat, [Yielded 1]).
Proof.
  split; [|split].
  - exact (proj1 (checkpoint_cases nat S 1
                    (mk_runtime nat (mk_nexus false None) 0%nat)) eq_refl).
  - exact (proj1 (proj2 (checkpoint_cases nat S 1
                    (mk_runtime nat (mk_nexus true None) 0%nat)))
                 eq_refl eq_refl).
  - exact (proj2 (proj2 (checkpoint_cases nat S 1
                    (mk_runtime nat (mk_nexus true (Some 2)) 0%nat)))
                 eq_refl 2 eq_refl).
Defined.

End Nexus.

(** ** The wait record and [VM::wakeup] *)

Module Waiter.

Local Open Scope eff_scope.

(** The two spin locks of the wakeup family: the thread's own
    [interrupt_lock_] and [shared.wait_lock()]. *)
Inductive SpinLock : Type :=
| interrupt_lock_
| wait_lock.

#[export] Instance SpinLock_eq_dec : EqDecision SpinLock.
Proof. solve_decision. Defined.

(** The fields of a [VM] that the wakeup family reads and writes.
    [parked] is the state of [park_]; [thread_sleep] is the sleep slot of
    the [Thread] object; a function or data pointer is null when 0. *)
Record VM : Type := mk_vm {
  check_local_interrupts_ : bool;
  interrupt_with_signal_ : bool;
  parked : bool;
  waiting_channel_ : Object;
  waiting_object_ : Object;
  custom_wakeup_ : Z;
  custom_wakeup_data_ : Z;
  thread_sleep : Object
}.

(** The calls a method makes on locks and collaborators. *)
Inductive Event : Type :=
| Lock (l : SpinLock)
| Unlock (l : SpinLock)
| Unpark
| PthreadKillSIGVTALRM
| ReleaseContention
| InflatedHeaderOf (obj : Object)
| InflatedWakeup (obj : Object)
| ChannelSend (chan val : Object)
| CustomWakeup (func data : Z).

(** [SpinLock::LockGuard guard(l)]: locked here, unlocked when the method
    returns. *)
Definition LockGuard {A} (l : SpinLock) (body : Eff VM Event A)
    : Eff VM Event A :=
  emit (Lock l) ;;
  let* r := body in
  emit (Unlock l) ;;
  eret r.

(** Modelled from the spec: [set_check_local_interrupts] (vm.hpp is not
    among the sources) raises the flag that makes the thread look at its
    interrupts, as [interrupt_with_signal] raises its own. *)
Definition set_check_local_interrupts : Eff VM Event unit :=
  modify (fun vm =>
    mk_vm true (interrupt_with_signal_ vm) (parked vm) (waiting_channel_ vm)
          (waiting_object_ vm) (custom_wakeup_ vm) (custom_wakeup_data_ vm)
          (thread_sleep vm)).

Definition interrupt_with_signal : Eff VM Event unit :=
  modify (fun vm =>
    mk_vm (check_local_interrupts_ vm) true (parked vm) (waiting_channel_ vm)
          (waiting_object_ vm) (custom_wakeup_ vm) (custom_wakeup_data_ vm)
          (thread_sleep vm)).

(** Modelled from the spec: the park (park.hpp is not among the sources).
    [parked_p] tells whether the thread is parked; [unpark] resumes the
    parked thread, which is then parked no more. *)
Definition parked_p : Eff VM Event bool := gets parked.

Definition unpark : Eff VM Event unit :=
  modify (fun vm =>
    mk_vm (check_local_interrupts_ vm) (interrupt_with_signal_ vm) false
          (waiting_channel_ vm) (waiting_object_ vm) (custom_wakeup_ vm)
          (custom_wakeup_data_ vm) (thread_sleep vm)) ;;
  emit Unpark.

(** [thread->sleep(this, val)] *)
Definition thread_sleep_set (val : Object) : Eff VM Event unit :=
  modify (fun vm =>
    mk_vm (check_local_interrupts_ vm) (interrupt_with_signal_ vm) (parked vm)
          (waiting_channel_ vm) (waiting_object_ vm) (custom_wakeup_ vm)
          (custom_wakeup_data_ vm) val).

Definition waiting_channel_set (chan : Object) : Eff VM Event unit :=
  modify (fun vm =>
    mk_vm (check_local_interrupts_ vm) (interrupt_with_signal_ vm) (parked vm)
          chan (waiting_object_ vm) (custom_wakeup_ vm)
          (custom_wakeup_data_ vm) (thread_sleep vm)).

Definition waiting_object_set (wait : Object) : Eff VM Event unit :=
  modify (fun vm =>
    mk_vm (check_local_interrupts_ vm) (interrupt_with_signal_ vm) (parked vm)
          (waiting_channel_ vm) wait (custom_wakeup_ vm)
          (custom_wakeup_data_ vm) (thread_sleep vm)).

Definition custom_wakeup_set (func : Z) : Eff VM Event unit :=
  modify (fun vm =>
    mk_vm (check_local_interrupts_ vm) (interrupt_with_signal_ vm) (parked vm)
          (waiting_channel_ vm) (waiting_object_ vm) func
          (custom_wakeup_data_ vm) (thread_sleep vm)).

Definition custom_wakeup_data_set (data : Z) : Eff VM Event unit :=
  modify (fun vm =>
    mk_vm (check_local_interrupts_ vm) (interrupt_with_signal_ vm) (parked vm)
          (waiting_channel_ vm) (waiting_object_ vm) (custom_wakeup_ vm)
          data (thread_sleep vm)).

Definition interrupt_with_signal_set (b : bool) : Eff VM Event unit :=
  modify (fun vm =>
    mk_vm (check_local_interrupts_ vm) b (parked vm)
          (waiting_channel_ vm) (waiting_object_ vm) (custom_wakeup_ vm)
          (custom_wakeup_data_ vm) (thread_sleep vm)).

(** [VM::wakeup] (the build is not [RBX_WINDOWS]).  An explicit
    [interrupt_lock_.unlock()] is followed, at the return, by the unlock
    of the guard. *)
Definition wakeup : Eff VM Event bool :=
  LockGuard interrupt_lock_ (
    set_check_local_interrupts ;;
    let* wait := gets waiting_object_ in
    let* is_parked := parked_p in
    if is_parked then
      unpark ;;
      eret true
    else
      let* by_signal := gets interrupt_with_signal_ in
      if by_signal then
        emit PthreadKillSIGVTALRM ;;
        emit (Unlock interrupt_lock_) ;;
        emit ReleaseContention ;;
        eret true
      else if negb (nil_p wait) then
        emit (InflatedHeaderOf wait) ;;
        emit (Unlock interrupt_lock_) ;;
        emit (InflatedWakeup wait) ;;
        eret true
      else
        let* chan := gets waiting_channel_ in
        if negb (nil_p chan) then
          emit (Unlock interrupt_lock_) ;;
          emit ReleaseContention ;;
          emit (ChannelSend chan cNil) ;;
          eret true
        else
          let* func := gets custom_wakeup_ in
          if negb (func =? 0) then
            emit (Unlock interrupt_lock_) ;;
            emit ReleaseContention ;;
            let* data := gets custom_wakeup_data_ in
            emit (CustomWakeup func data) ;;
            eret true
          else
            eret false).

(** [VM::clear_waiter] *)
Definition clear_waiter : Eff VM Event unit :=
  LockGuard wait_lock (
    interrupt_with_signal_set false ;;
    waiting_channel_set cNil ;;
    waiting_object_set cNil ;;
    custom_wakeup_set 0 ;;
    custom_wakeup_data_set 0).

(** [VM::wait_on_channel] *)
Definition wait_on_channel (chan : Object) : Eff VM Event unit :=
  LockGuard interrupt_lock_ (
    thread_sleep_set cTrue ;;
    waiting_channel_set chan).

(** [VM::wait_on_inflated_lock] *)
Definition wait_on_inflated_lock (wait : Object) : Eff VM Event unit :=
  LockGuard wait_lock (
    waiting_object_set wait).

(** [VM::wait_on_custom_function] *)
Definition wait_on_custom_function (func data : Z) : Eff VM Event unit :=
  LockGuard wait_lock (
    custom_wakeup_set func ;;
    custom_wakeup_data_set data).

(** *** Reading the wait record *)

Definition bool_to_nat (b : bool) : nat := if b then 1%nat else 0%nat.

(** The number of wait-record kinds that are active: parked token,
    channel, blocked-on object, custom callback. *)
Definition active_kinds (vm : VM) : nat :=
  (bool_to_nat (parked vm)
   + bool_to_nat (negb (nil_p (waiting_channel_ vm)))
   + bool_to_nat (negb (nil_p (waiting_object_ vm)))
   + bool_to_nat (negb (custom_wakeup_ vm =? 0)%Z))%nat.

(** Nothing for [wakeup] to act on. *)
Definition no_active_wait (vm : VM) : Prop :=
  parked vm = false
  /\ interrupt_with_signal_ vm = false
  /\ waiting_object_ vm = cNil
  /\ waiting_channel_ vm = cNil
  /\ custom_wakeup_ vm = 0.

(** Whether the lock [l] is held once the calls of [log] are made,
    starting from [held]. *)
Definition held_after (l : SpinLock) (log : list Event) (held : bool) : bool :=
  fold_left (fun h e =>
    match e with
    | Lock l' => if bool_decide (l' = l) then true else h
    | Unlock l' => if bool_decide (l' = l) then false else h
    | _ => h
    end) log held.

(** Enumerate the ways a known log splits as [pre ++ e :: post]. *)
Ltac split_log H pre :=
  destruct pre as [|? pre]; cbn in H;
  [ try discriminate H
  | first [ discriminate H | injection H as <- H; split_log H pre ] ].

(** C3 as the sentence has it: after any registration at most one kind is
    active. *)
Definition registration_clears_others : Prop :=
  forall (vm : VM) (chan wait : Object) (func data : Z),
    (active_kinds (state_of (wait_on_channel chan vm)) <= 1)%nat
    /\ (active_kinds (state_of (wait_on_inflated_lock wait vm)) <= 1)%nat
    /\ (active_kinds (state_of (wait_on_custom_function func data vm))
        <= 1)%nat.

(** C4 as the sentence has it. *)
Definition wakeup_without_wait_changes_nothing : Prop :=
  forall vm : VM,
    no_active_wait vm ->
    result_of (wakeup vm) = false /\ state_of (wakeup vm) = vm.

Definition second_wakeup_of_parked_fails : Prop :=
  forall vm : VM,
    parked vm = true ->
    result_of (wakeup vm) = true
    /\ result_of (wakeup (state_of (wakeup vm))) = false.

(** The state [wakeup] leaves when it has only raised the flag. *)
Definition flagged (vm : VM) : VM :=
  mk_vm true (interrupt_with_signal_ vm) (parked vm) (waiting_channel_ vm)
        (waiting_object_ vm) (custom_wakeup_ vm) (custom_wakeup_data_ vm)
        (thread_sleep vm).

Definition unparked (vm : VM) : VM :=
  mk_vm (check_local_interrupts_ vm) (interrupt_with_signal_ vm) false
        (waiting_channel_ vm) (waiting_object_ vm) (custom_wakeup_ vm)
        (custom_wakeup_data_ vm) (thread_sleep vm).

(** [wakeup], branch by branch. *)
Lemma wakeup_branches (vm : VM) :
  wakeup vm =
    if parked vm then
      (true, unparked (flagged vm),
       [Lock interrupt_lock_; Unpark; Unlock interrupt_lock_])
    else if interrupt_with_signal_ vm then
      (true, flagged vm,
       [Lock interrupt_lock_; PthreadKillSIGVTALRM; Unlock interrupt_lock_;
        ReleaseContention; Unlock interrupt_lock_])
    else if negb (nil_p (waiting_object_ vm)) then
      (true, flagged vm,
       [Lock interrupt_lock_; InflatedHeaderOf (waiting_object_ vm);
        Unlock interrupt_lock_; InflatedWakeup (waiting_object_ vm);
        Unlock interrupt_lock_])
    else if negb (nil_p (waiting_channel_ vm)) then
      (true, flagged vm,
       [Lock interrupt_lock_; Unlock interrupt_lock_; ReleaseContention;
        ChannelSend (waiting_channel_ vm) cNil; Unlock interrupt_lock_])
    else if negb (custom_wakeup_ vm =? 0) then
      (true, flagged vm,
       [Lock interrupt_lock_; Unlock interrupt_lock_; ReleaseContention;
        CustomWakeup (custom_wakeup_ vm) (custom_wakeup_data_ vm);
        Unlock interrupt_lock_])
    else
      (false, flagged vm, [Lock interrupt_lock_; Unlock interrupt_lock_]).
Proof.
  destruct vm as [chk sig prk chan wait func data slp].
  unfold wakeup, LockGuard, flagged, unparked.
  cbn [check_local_interrupts_ interrupt_with_signal_ parked waiting_channel_
       waiting_object_ custom_wakeup_ custom_wakeup_data_ thread_sleep].
  destruct prk; [reflexivity|].
  destruct sig; [reflexivity|].
  destruct (nil_p wait) eqn:Hwait, (nil_p chan) eqn:Hchan,
    (func =? 0) eqn:Hfunc; cbn [negb];
    unfold ebind, emit, eret, gets, modify, set_check_local_interrupts,
      parked_p; cbn;
    repeat (first [rewrite Hwait | rewrite Hchan | rewrite Hfunc]; cbn);
    reflexivity.
Qed.

(** C3, as amended.  A registration writes the fields of its own kind and
    nothing else ([wait_on_channel] also marks the thread as sleeping);
    the other kinds stay as they were.  It is [clear_waiter] that resets
    the channel, the object and the callback, so that a registration made
    right after it on a thread that is not parked leaves at most one kind
    active. *)
Theorem registration_writes_own_kind (vm : VM) (chan wait : Object)
    (func data : Z) :
  wait_on_channel chan vm =
    (tt, mk_vm (check_local_interrupts_ vm) (interrupt_with_signal_ vm)
               (parked vm) chan (waiting_object_ vm) (custom_wakeup_ vm)
               (custom_wakeup_data_ vm) cTrue,
     [Lock interrupt_lock_; Unlock interrupt_lock_])
  /\ wait_on_inflated_lock wait vm =
    (tt, mk_vm (check_local_interrupts_ vm) (interrupt_with_signal_ vm)
               (parked vm) (waiting_channel_ vm) wait (custom_wakeup_ vm)
               (custom_wakeup_data_ vm) (thread_sleep vm),
     [Lock wait_lock; Unlock wait_lock])
  /\ wait_on_custom_function func data vm =
    (tt, mk_vm (check_local_interrupts_ vm) (interrupt_with_signal_ vm)
               (parked vm) (waiting_channel_ vm) (waiting_object_ vm) func
               data (thread_sleep vm),
     [Lock wait_lock; Unlock wait_lock])
  /\ clear_waiter vm =
    (tt, mk_vm (check_local_interrupts_ vm) false (parked vm) cNil cNil 0 0
               (thread_sleep vm),
     [Lock wait_lock; Unlock wait_lock])
  /\ (parked vm = false ->
      let cleared := state_of (clear_waiter vm) in
      (active_kinds (state_of (wait_on_channel chan cleared)) <= 1)%nat
      /\ (active_kinds (state_of (wait_on_inflated_lock wait cleared)) <= 1)%nat
      /\ (active_kinds (state_of (wait_on_custom_function func data cleared))
          <= 1)%nat).
Proof.
  destruct vm as [chk sig prk ch w f d slp].
  repeat split; try reflexivity; cbn in *; subst prk;
    unfold active_kinds; cbn.
  - destruct (nil_p chan); cbn; lia.
  - destruct (nil_p wait); cbn; lia.
  - destruct (func =? 0); cbn; lia.
Qed.

(** C4, as amended.  On a mutator with no signal pending, no object, no
    channel and no callback: if it is not parked, [wakeup] answers false,
    raises [check_local_interrupts_] and leaves every other field as it
    was, so that nothing at all changes when the flag was already up; if
    it is parked, [wakeup] answers true and unparks it, and a second
    [wakeup] right after answers false and changes nothing. *)
Theorem wakeup_without_wait (vm : VM) :
  interrupt_with_signal_ vm = false ->
  waiting_object_ vm = cNil ->
  waiting_channel_ vm = cNil ->
  custom_wakeup_ vm = 0 ->
  (parked vm = false ->
     wakeup vm = (false, flagged vm,
                  [Lock interrupt_lock_; Unlock interrupt_lock_])
     /\ no_active_wait (flagged vm)
     /\ (check_local_interrupts_ vm = true -> flagged vm = vm))
  /\ (parked vm = true ->
      wakeup vm = (true, unparked (flagged vm),
                   [Lock interrupt_lock_; Unpark; Unlock interrupt_lock_])
      /\ wakeup (unparked (flagged vm)) =
           (false, unparked (flagged vm),
            [Lock interrupt_lock_; Unlock interrupt_lock_])).
Proof.
  intros Hsig Hobj Hchan Hfunc. split; intros Hpark.
  - rewrite wakeup_branches, Hpark, Hsig, Hobj, Hchan, Hfunc.
    cbn [negb nil_p Z.eqb]. split; [reflexivity|]. split.
    + unfold no_active_wait, flagged. cbn. auto.
    + intros Hchk. destruct vm as [chk sig prk ch w f d slp].
      cbn in Hchk. subst chk. reflexivity.
  - rewrite wakeup_branches, Hpark. split; [reflexivity|].
    rewrite wakeup_branches. unfold unparked, flagged.
    cbn [check_local_interrupts_ interrupt_with_signal_ parked
         waiting_channel_ waiting_object_ custom_wakeup_
         custom_wakeup_data_ thread_sleep].
    rewrite Hsig, Hobj, Hchan, Hfunc. reflexivity.
Qed.

(** C7.  When [wakeup] takes the branch of a thread blocked on a
    contended object, it answers true, and the wake path of the object's
    lock is entered after [interrupt_lock_] has been released: at every
    [InflatedWakeup] of the log the lock is not held, an [Unlock] of it
    having come before. *)
Theorem object_woken_after_unlock (vm : VM) :
  parked vm = false ->
  interrupt_with_signal_ vm = false ->
  nil_p (waiting_object_ vm) = false ->
  result_of (wakeup vm) = true
  /\ log_of (wakeup vm) =
       [Lock interrupt_lock_; InflatedHeaderOf (waiting_object_ vm);
        Unlock interrupt_lock_; InflatedWakeup (waiting_object_ vm);
        Unlock interrupt_lock_]
  /\ forall (pre post : list Event) (obj : Object),
       log_of (wakeup vm) = pre ++ InflatedWakeup obj :: post ->
       held_after interrupt_lock_ pre false = false
       /\ In (Unlock interrupt_lock_) pre.
Proof.
  intros Hpark Hsig Hwait.
  rewrite wakeup_branches, Hpark, Hsig, Hwait.
  cbn [negb result_of log_of fst snd].
  split; [reflexivity|]. split; [reflexivity|].
  intros pre post obj Hsplit.
  split_log Hsplit pre.
  split; [reflexivity|]. cbn. auto.
Qed.

(** The calls of [wakeup] that may block: none is made with
    [interrupt_lock_] held, whichever branch is taken. *)
Definition may_block (e : Event) : bool :=
  match e with
  | ReleaseContention | InflatedWakeup _ | ChannelSend _ _
  | CustomWakeup _ _ => true
  | _ => false
  end.

Lemma wakeup_calls_out_unlocked (vm : VM) (pre post : list Event)
    (e : Event) :
  log_of (wakeup vm) = pre ++ e :: post ->
  may_block e = true ->
  held_after interrupt_lock_ pre false = false.
Proof.
  rewrite wakeup_branches.
  destruct (parked vm), (interrupt_with_signal_ vm),
    (nil_p (waiting_object_ vm)), (nil_p (waiting_channel_ vm)),
    (custom_wakeup_ vm =? 0);
    cbn [negb log_of snd]; intros Hsplit Hblock;
    split_log Hsplit pre; injection Hsplit as <- _;
    first [discriminate Hblock | reflexivity].
Qed.

(** *** Four threads *)

Definition idle : VM := mk_vm false false false cNil cNil 0 0 cFalse.

Definition blocked_on_object : VM :=
  mk_vm false false false cNil (Reference 64) 0 0 cFalse.

Definition parked_only : VM := mk_vm false false true cNil cNil 0 0 cTrue.

Definition parked_with_channel : VM :=
  mk_vm false false true (Reference 128) cNil 0 0 cTrue.

(** C3 fails as stated: a thread blocked on an object that registers on a
    channel has both kinds active afterwards. *)
Lemma registration_keeps_other_kinds :
  wait_on_channel (Reference 128) blocked_on_object
    = (tt, mk_vm false false false (Reference 128) (Reference 64) 0 0 cTrue,
       [Lock interrupt_lock_; Unlock interrupt_lock_])
  /\ active_kinds
       (state_of (wait_on_channel (Reference 128) blocked_on_object)) = 2%nat
  /\ ~ registration_clears_others.
Proof.
  split; [reflexivity|]. split; [reflexivity|].
  intros Hclaim.
  destruct (Hclaim blocked_on_object (Reference 128) cNil 0 0) as [Hchan _].
  vm_compute in Hchan. lia.
Qed.

(** C4 fails as stated: on an idle thread [wakeup] answers false but
    raises [check_local_interrupts_]; and the second [wakeup] of a parked
    thread that also waits on a channel answers true. *)
Lemma wakeup_changes_idle_thread :
  no_active_wait idle
  /\ wakeup idle = (false, mk_vm true false false cNil cNil 0 0 cFalse,
                    [Lock interrupt_lock_; Unlock interrupt_lock_])
  /\ ~ wakeup_without_wait_changes_nothing
  /\ result_of (wakeup (state_of (wakeup parked_with_channel))) = true
  /\ ~ second_wakeup_of_parked_fails.
Proof.
  assert (Hidle : no_active_wait idle) by (repeat split).
  split; [exact Hidle|]. split; [reflexivity|]. split.
  - intros Hclaim. destruct (Hclaim idle Hidle) as [_ Hsame].
    vm_compute in Hsame. discriminate.
  - split; [reflexivity|].
    intros Hclaim.
    destruct (Hclaim parked_with_channel eq_refl) as [_ Hsecond].
    vm_compute in Hsecond. discriminate.
Qed.

Lemma registration_writes_own_kind_witness :
  parked idle = false
  /\ wait_on_inflated_lock (Reference 64) idle = (tt, blocked_on_object,
       [Lock wait_lock; Unlock wait_lock])
  /\ (active_kinds
        (state_of (wait_on_channel (Reference 128)
                     (state_of (clear_waiter blocked_on_object)))) <= 1)%nat.
Proof.
  split; [reflexivity|]. split.
  - exact (proj1 (proj2 (registration_writes_own_kind idle cNil
                           (Reference 64) 0 0))).
  - destruct (registration_writes_own_kind blocked_on_object (Reference 128)
                cNil 0 0) as (_ & _ & _ & _ & Hcleared).
    exact (proj1 (Hcleared eq_refl)).
Defined.

Lemma wakeup_without_wait_witness :
  interrupt_with_signal_ parked_only = false
  /\ waiting_object_ parked_only = cNil
  /\ waiting_channel_ parked_only = cNil
  /\ custom_wakeup_ parked_only = 0
  /\ parked parked_only = true
  /\ wakeup parked_only =
       (true, mk_vm true false false cNil cNil 0 0 cTrue,
        [Lock interrupt_lock_; Unpark; Unlock interrupt_lock_])
  /\ wakeup (mk_vm true false false cNil cNil 0 0 cTrue) =
       (false, mk_vm true false false cNil cNil 0 0 cTrue,
        [Lock interrupt_lock_; Unlock interrupt_lock_]).
Proof.
  do 5 (split; [reflexivity|]).
  exact (proj2 (wakeup_without_wait parked_only eq_refl eq_refl eq_refl eq_refl)
           eq_refl).
Defined.

Lemma object_woken_after_unlock_witness :
  parked blocked_on_object = false
  /\ interrupt_with_signal_ blocked_on_object = false
  /\ nil_p (waiting_object_ blocked_on_object) = false
  /\ result_of (wakeup blocked_on_object) = true
  /\ log_of (wakeup blocked_on_object) =
       [Lock interrupt_lock_; InflatedHeaderOf (Reference 64);
        Unlock interrupt_lock_; InflatedWakeup (Reference 64);
        Unlock interrupt_lock_]
  /\ forall (pre post : list Event) (obj : Object),
       log_of (wakeup blocked_on_object) = pre ++ InflatedWakeup obj :: post ->
       held_after interrupt_lock_ pre false = false
       /\ In (Unlock interrupt_lock_) pre.
Proof.
  do 3 (split; [reflexivity|]).
  exact (object_woken_after_unlock blocked_on_object eq_refl eq_refl eq_refl).
Defined.

(** *** More on the wakeup family *)

Lemma nil_p_true (obj : Object) : nil_p obj = true <-> obj = cNil.
Proof. destruct obj; cbn; split; congruence. Qed.

(** X10.  [wakeup] answers false exactly on a thread with no active wait:
    not parked, no signal pending, no object, no channel, no callback. *)
Theorem wakeup_fails_iff_no_wait (vm : VM) :
  result_of (wakeup vm) = false <-> no_active_wait vm.
Proof.
  rewrite wakeup_branches. unfold no_active_wait.
  rewrite <- !nil_p_true.
  destruct (parked vm), (interrupt_with_signal_ vm),
    (nil_p (waiting_object_ vm)), (nil_p (waiting_channel_ vm)),
    (Z.eqb_spec (custom_wakeup_ vm) 0);
    cbn [negb result_of fst]; intuition congruence.
Qed.

(** The calls that wake somebody up. *)
Definition wake_action (e : Event) : bool :=
  match e with
  | Unpark | PthreadKillSIGVTALRM | InflatedWakeup _ | ChannelSend _ _
  | CustomWakeup _ _ => true
  | _ => false
  end.

Definition wake_actions (log : list Event) : list Event :=
  List.filter wake_action log.


(** X12.  [wakeup] does not consume the wait record: channel, object,
    callback, its data, the signal flag and the sleep mark are as before,
    and [check_local_interrupts_] is up.  So on a thread that is not
    parked a second [wakeup] does what the first did, waking call
    included, until [clear_waiter] is called. *)
Theorem wakeup_keeps_wait_record (vm : VM) :
  let vm' := state_of (wakeup vm) in
  check_local_interrupts_ vm' = true
  /\ waiting_channel_ vm' = waiting_channel_ vm
  /\ waiting_object_ vm' = waiting_object_ vm
  /\ custom_wakeup_ vm' = custom_wakeup_ vm
  /\ custom_wakeup_data_ vm' = custom_wakeup_data_ vm
  /\ interrupt_with_signal_ vm' = interrupt_with_signal_ vm
  /\ thread_sleep vm' = thread_sleep vm
  /\ (parked vm = false -> wakeup vm' = wakeup vm).
Proof.
  cbv zeta.
  assert (Hstate : state_of (wakeup vm) =
            if parked vm then unparked (flagged vm) else flagged vm).
  { rewrite wakeup_branches.
    destruct (parked vm), (interrupt_with_signal_ vm),
      (nil_p (waiting_object_ vm)), (nil_p (waiting_channel_ vm)),
      (custom_wakeup_ vm =? 0); reflexivity. }
  rewrite Hstate. destruct (parked vm) eqn:Hpark.
  - cbn. repeat split; auto. discriminate.
  - cbn. repeat split; auto.
Qed.

(** X13.  [clear_waiter] resets the signal flag, the channel, the object
    and the callback with its data, and nothing else: the park state, the
    interrupt-check flag and the sleep mark set by [wait_on_channel] stay.
    It is idempotent, and after it [wakeup] answers false on a thread
    that is not parked. *)
Theorem clear_waiter_clears (vm : VM) :
  let vm' := state_of (clear_waiter vm) in
  interrupt_with_signal_ vm' = false
  /\ waiting_channel_ vm' = cNil
  /\ waiting_object_ vm' = cNil
  /\ custom_wakeup_ vm' = 0
  /\ custom_wakeup_data_ vm' = 0
  /\ parked vm' = parked vm
  /\ check_local_interrupts_ vm' = check_local_interrupts_ vm
  /\ thread_sleep vm' = thread_sleep vm
  /\ clear_waiter vm' = (tt, vm', [Lock wait_lock; Unlock wait_lock])
  /\ (parked vm = false -> result_of (wakeup vm') = false)
  /\ (forall chan,
        thread_sleep
          (state_of (clear_waiter (state_of (wait_on_channel chan vm))))
        = cTrue).
Proof.
  destruct vm as [chk sig prk ch w f d slp]. cbn.
  repeat split; auto.
  intros ->. reflexivity.
Qed.

(** X14.  What is registered is what [wakeup] serves.  On a thread that
    is neither parked nor interrupted by signal: after
    [wait_on_inflated_lock] of a non-nil object, [wakeup] wakes that
    object; with no object registered, after [wait_on_channel] of a
    non-nil channel it sends [nil] on that channel; with neither, after
    [wait_on_custom_function] of a non-null function it calls that
    function on the data given.  A nil channel or a null function
    registers nothing. *)
Theorem registered_target_is_woken (vm : VM) (obj chan : Object)
    (func data : Z) :
  parked vm = false ->
  interrupt_with_signal_ vm = false ->
  (nil_p obj = false ->
     wake_actions (log_of (wakeup (state_of (wait_on_inflated_lock obj vm))))
     = [InflatedWakeup obj])
  /\ (waiting_object_ vm = cNil -> nil_p chan = false ->
      wake_actions (log_of (wakeup (state_of (wait_on_channel chan vm))))
      = [ChannelSend chan cNil])
  /\ (waiting_object_ vm = cNil -> waiting_channel_ vm = cNil -> func <> 0 ->
      wake_actions
        (log_of (wakeup (state_of (wait_on_custom_function func data vm))))
      = [CustomWakeup func data])
  /\ (no_active_wait vm ->
      result_of (wakeup (state_of (wait_on_channel cNil vm))) = false
      /\ result_of (wakeup (state_of (wait_on_custom_function 0 data vm)))
         = false).
Proof.
  intros Hpark Hsig.
  destruct vm as [chk sig prk ch w f d slp]. cbn in Hpark, Hsig. subst.
  split; [|split; [|split]].
  - intros Hobj. rewrite wakeup_branches. cbn. now rewrite Hobj.
  - intros Hw Hchan. cbn in Hw. subst w.
    rewrite wakeup_branches. cbn. now rewrite Hchan.
  - intros Hw Hch Hfunc. cbn in Hw, Hch. subst w ch.
    rewrite wakeup_branches. cbn.
    apply Z.eqb_neq in Hfunc. now rewrite Hfunc.
  - intros (_ & _ & Hobj & Hchan & Hfunc). cbn in Hobj, Hchan, Hfunc. subst.
    split; rewrite wakeup_branches; reflexivity.
Qed.

(** X15.  Every method of the family returns with the lock it took
    released, whether or not it was held before, and leaves the other
    lock alone: [wakeup] and [wait_on_channel] work under
    [interrupt_lock_], while [clear_waiter], [wait_on_inflated_lock] and
    [wait_on_custom_function] work under the wait lock. *)
Theorem locks_released (vm : VM) (chan obj : Object) (func data : Z)
    (held : bool) :
  held_after interrupt_lock_ (log_of (wakeup vm)) held = false
  /\ held_after wait_lock (log_of (wakeup vm)) held = held
  /\ held_after interrupt_lock_ (log_of (wait_on_channel chan vm)) held = false
  /\ held_after wait_lock (log_of (wait_on_channel chan vm)) held = held
  /\ held_after wait_lock (log_of (clear_waiter vm)) held = false
  /\ held_after interrupt_lock_ (log_of (clear_waiter vm)) held = held
  /\ held_after wait_lock (log_of (wait_on_inflated_lock obj vm)) held = false
  /\ held_after interrupt_lock_ (log_of (wait_on_inflated_lock obj vm)) held
     = held
  /\ held_after wait_lock (log_of (wait_on_custom_function func data vm)) held
     = false
  /\ held_after interrupt_lock_
       (log_of (wait_on_custom_function func data vm)) held = held.
Proof.
  rewrite wakeup_branches.
  destruct (parked vm), (interrupt_with_signal_ vm),
    (nil_p (waiting_object_ vm)), (nil_p (waiting_channel_ vm)),
    (custom_wakeup_ vm =? 0); repeat split; reflexivity.
Qed.

Lemma registered_target_is_woken_witness :
  parked idle = false
  /\ interrupt_with_signal_ idle = false
  /\ wake_actions
       (log_of (wakeup (state_of (wait_on_inflated_lock (Reference 64) idle))))
     = [InflatedWakeup (Reference 64)]
  /\ wake_actions
       (log_of (wakeup (state_of (wait_on_channel (Reference 128) idle))))
     = [ChannelSend (Reference 128) cNil]
  /\ wake_actions
       (log_of (wakeup (state_of (wait_on_custom_function 4096 8 idle))))
     = [CustomWakeup 4096 8].
Proof.
  destruct (registered_target_is_woken idle (Reference 64) (Reference 128)
              4096 8 eq_refl eq_refl) as (Hobj & Hchan & Hfunc & _).
  split; [reflexivity|]. split; [reflexivity|].
  split; [exact (Hobj eq_refl)|].
  split; [exact (Hchan eq_refl eq_refl)|].
  exact (Hfunc eq_refl eq_refl ltac:(discriminate)).
Defined.

End Waiter.

(** ** [VM::init_stack_size] *)

Module StackSize.

(** [cMaxStack], 128M, and the initial [VM::cStackDepthMax]. *)
Definition cMaxStack : Z := 1024 * 1024 * 128.
Definition cStackDepthMax_default : Z := 655300.

(** [RLIM_INFINITY] of a 64-bit [rlim_t]. *)
Definition RLIM_INFINITY : Z := 2 ^ 64 - 1.

(** [VM::init_stack_size] on a build that is not [RBX_WINDOWS].
    [getrlimit] is [Some rlim_cur] when [getrlimit(RLIMIT_STACK, &rlim)]
    answers 0 and [None] otherwise; the result is [cStackDepthMax] after
    the call.  [rlim_t] is unsigned on 64 bits. *)
Definition init_stack_size (getrlimit : option Z) (cStackDepthMax : Z) : Z :=
  match getrlimit with
  | Some rlim_cur =>
      let space := rlim_cur / 5 in
      let space := if 1024 * 1024 <? space then 1024 * 1024 else space in
      let adjusted := wrap_size_t (rlim_cur - space) in
      if cMaxStack <? adjusted then cMaxStack else adjusted
  | None => cStackDepthMax
  end.

Lemma adjusted_exact (rlim_cur : Z) :
  0 <= rlim_cur <= RLIM_INFINITY ->
  let space := rlim_cur / 5 in
  let space := if 1024 * 1024 <? space then 1024 * 1024 else space in
  wrap_size_t (rlim_cur - space) = rlim_cur - space
  /\ 0 <= space <= rlim_cur
  /\ 5 * space <= rlim_cur.
Proof.
  intros Hr. cbv zeta. unfold wrap_size_t, RLIM_INFINITY in *.
  pose proof (Z.div_pos rlim_cur 5 ltac:(lia) ltac:(lia)) as Hpos.
  pose proof (Z.mul_div_le rlim_cur 5 ltac:(lia)) as Hle.
  destruct (1024 * 1024 <? rlim_cur / 5) eqn:Hbig.
  - apply Z.ltb_lt in Hbig. rewrite Z.mod_small by lia. lia.
  - rewrite Z.mod_small by lia. lia.
Qed.

(** X16.  With a stack limit [rlim_cur], the depth set is never above
    128M nor above the limit, and it leaves at least a fifth of the limit
    or 1M, whichever is smaller, of the limit unused.  A limit of 129M or
    more, an unlimited stack included, gives exactly 128M; a limit of at
    most 5M gives the limit less a fifth of it. *)
Theorem stack_depth_bounds (rlim_cur d0 : Z) :
  0 <= rlim_cur <= RLIM_INFINITY ->
  let d := init_stack_size (Some rlim_cur) d0 in
  0 <= d <= cMaxStack
  /\ d <= rlim_cur
  /\ Z.min (rlim_cur / 5) (1024 * 1024) <= rlim_cur - d
  /\ (cMaxStack + 1024 * 1024 <= rlim_cur -> d = cMaxStack)
  /\ (rlim_cur <= 5 * 1024 * 1024 -> d = rlim_cur - rlim_cur / 5).
Proof.
  intros Hr. cbv zeta. unfold init_stack_size.
  destruct (adjusted_exact rlim_cur Hr) as (Hexact & Hspace & Hfifth).
  cbv zeta in Hexact, Hspace, Hfifth. rewrite Hexact.
  pose proof (Z.mul_div_le rlim_cur 5 ltac:(lia)) as Hle.
  pose proof (Z.mul_succ_div_gt rlim_cur 5 ltac:(lia)) as Hgt.
  unfold cMaxStack in *.
  destruct (Z.ltb_spec (1024 * 1024) (rlim_cur / 5)) as [Hbig|Hbig];
    cbv beta iota in *;
    match goal with
    | |- context [?a <? ?b] => destruct (Z.ltb_spec a b) as [Hcap|Hcap]
    end; cbv beta iota; lia.
Qed.

(** X17.  The depth grows with the limit: a larger stack limit never
    gives a smaller depth.  When [getrlimit] fails the depth is left as it
    was. *)
Theorem stack_depth_monotone (r1 r2 d0 : Z) :
  0 <= r1 -> r1 <= r2 -> r2 <= RLIM_INFINITY ->
  init_stack_size (Some r1) d0 <= init_stack_size (Some r2) d0
  /\ init_stack_size None d0 = d0.
Proof.
  intros H0 H12 H2. split; [|reflexivity]. unfold init_stack_size.
  destruct (adjusted_exact r1 ltac:(lia)) as (Hexact1 & _ & _).
  destruct (adjusted_exact r2 ltac:(lia)) as (Hexact2 & _ & _).
  cbv zeta in Hexact1, Hexact2. rewrite Hexact1, Hexact2.
  pose proof (Z.div_le_mono r1 r2 5 ltac:(lia) H12) as Hdiv.
  pose proof (Z.mul_div_le r1 5 ltac:(lia)) as Hle1.
  pose proof (Z.mul_succ_div_gt r1 5 ltac:(lia)) as Hgt1.
  pose proof (Z.mul_div_le r2 5 ltac:(lia)) as Hle2.
  pose proof (Z.mul_succ_div_gt r2 5 ltac:(lia)) as Hgt2.
  unfold cMaxStack.
  repeat match goal with
         | |- context [?a <? ?b] =>
             let H := fresh "Hc" in
             destruct (Z.ltb_spec a b) as [H|H]; cbv beta iota in *
         | _ : context [?a <? ?b] |- _ =>
             let H := fresh "Hc" in
             destruct (Z.ltb_spec a b) as [H|H]; cbv beta iota in *
         end; lia.
Qed.

Example unlimited_stack :
  init_stack_size (Some RLIM_INFINITY) cStackDepthMax_default = 134217728.
Proof. reflexivity. Qed.

Example eight_megabytes :
  init_stack_size (Some 8388608) cStackDepthMax_default = 7340032.
Proof. reflexivity. Qed.

Lemma stack_depth_bounds_witness :
  0 <= 8388608 <= RLIM_INFINITY
  /\ 0 <= init_stack_size (Some 8388608) 655300 <= cMaxStack
  /\ init_stack_size (Some 8388608) 655300 <= 8388608
  /\ Z.min (8388608 / 5) (1024 * 1024)
       <= 8388608 - init_stack_size (Some 8388608) 655300.
Proof.
  assert (Hr : 0 <= 8388608 <= RLIM_INFINITY)
    by (split; vm_compute; discriminate).
  split; [exact Hr|].
  destruct (stack_depth_bounds 8388608 655300 Hr) as (Hd & Hle & Hroom & _).
  split; [exact Hd|]. split; [exact Hle | exact Hroom].
Defined.

Lemma stack_depth_monotone_witness :
  0 <= 4194304
  /\ 4194304 <= 8388608
  /\ 8388608 <= RLIM_INFINITY
  /\ init_stack_size (Some 4194304) 655300
     <= init_stack_size (Some 8388608) 655300.
Proof.
  assert (H0 : 0 <= 4194304) by (vm_compute; discriminate).
  assert (H12 : 4194304 <= 8388608) by (vm_compute; discriminate).
  assert (H2 : 8388608 <= RLIM_INFINITY) by (vm_compute; discriminate).
  split; [exact H0|]. split; [exact H12|]. split; [exact H2|].
  exact (proj1 (stack_depth_monotone 4194304 8388608 655300 H0 H12 H2)).
Defined.

End StackSize.

(** ** [VM::path2class] *)

Module PathToClass.

Local Open Scope string_scope.

Definition colon : Ascii.ascii := ":"%char.

(** [strstr(cur, "::")] followed by [*pos = 0] and [cur = pos + 2]: the
    text before the first "::" of [s] and the text after it, or [None]
    when [s] holds no "::". *)
Fixpoint split_scope (s : string) : option (string * string) :=
  match s with
  | EmptyString => None
  | String c rest =>
      let later :=
        match split_scope rest with
        | Some (before, after) => Some (String c before, after)
        | None => None
        end in
      if Ascii.eqb c colon then
        match rest with
        | String c' rest' => if Ascii.eqb c' colon then Some ("", rest')
                             else later
        | EmptyString => later
        end
      else later
  end.

Section Lookup.

(** Modules, the constant table and the downcast belong to headers that
    are not among the sources: [get_const] is [mod->get_const(&state,
    state.symbol(name))], [try_as_Module] is [try_as<Module>]. *)
Variable ModuleRef : Type.
Variable G_object : ModuleRef.
Variable get_const : ModuleRef -> string -> Object.
Variable try_as_Module : Object -> option ModuleRef.

(** The [for(;;)] of [VM::path2class], one turn per unit of fuel. *)
Fixpoint path2class_from (fuel : nat) (under : ModuleRef) (cur : string)
    : option Object :=
  match fuel with
  | O => None
  | S fuel' =>
      let pos := split_scope cur in
      let name := match pos with
                  | Some (before, _) => before
                  | None => cur
                  end in
      let obj := get_const under name in
      match pos with
      | Some (_, rest) =>
          match try_as_Module obj with
          | Some m => path2class_from fuel' m rest
          | None => Some cNil
          end
      | None => Some obj
      end
  end.

Definition path2class (path : string) : option Object :=
  path2class_from (S (String.length path)) G_object path.

(** The lookup a path stands for: each name but the last must be a
    module, the last one is the answer. *)
Fixpoint resolve (under : ModuleRef) (names : list string) : Object :=
  match names with
  | [] => get_const under ""
  | [name] => get_const under name
  | name :: rest =>
      match try_as_Module (get_const under name) with
      | Some m => resolve m rest
      | None => cNil
      end
  end.

Fixpoint join (names : list string) : string :=
  match names with
  | [] => ""
  | [name] => name
  | name :: rest => name ++ "::" ++ join rest
  end.

Fixpoint colon_free (s : string) : Prop :=
  match s with
  | EmptyString => True
  | String c rest => c <> colon /\ colon_free rest
  end.

Lemma split_scope_shorter (s before after : string) :
  split_scope s = Some (before, after) ->
  (String.length after + 2 <= String.length s)%nat.
Proof.
  revert before after. induction s as [|c rest IH]; intros before after.
  - discriminate.
  - cbn [split_scope].
    assert (Hlater : match split_scope rest with
                     | Some (b, a) => Some (String c b, a)
                     | None => None
                     end = Some (before, after) ->
                     (String.length after + 2 <= String.length (String c rest))%nat).
    { destruct (split_scope rest) as [[b a]|]; [|discriminate].
      intros [= _ <-]. specialize (IH b a eq_refl). cbn. lia. }
    destruct (Ascii.eqb c colon); [|exact Hlater].
    destruct rest as [|c' rest']; [exact Hlater|].
    destruct (Ascii.eqb c' colon); [|exact Hlater].
    intros [= _ <-]. cbn. lia.
Qed.

Lemma split_scope_colon_free (s : string) :
  colon_free s -> split_scope s = None.
Proof.
  induction s as [|c rest IH]; [reflexivity|].
  intros [Hc Hrest]. cbn [split_scope]. rewrite (IH Hrest).
  apply Ascii.eqb_neq in Hc. now rewrite Hc.
Qed.

Lemma split_scope_first (a rest : string) :
  colon_free a -> split_scope (a ++ "::" ++ rest) = Some (a, rest).
Proof.
  induction a as [|c a IH]; intros Hfree.
  - reflexivity.
  - destruct Hfree as [Hc Hfree]. specialize (IH Hfree).
    change (String c a ++ "::" ++ rest) with (String c (a ++ "::" ++ rest)).
    cbn [split_scope]. rewrite IH.
    apply Ascii.eqb_neq in Hc. now rewrite Hc.
Qed.

(** Fuel beyond the length of the text changes nothing. *)
Lemma path2class_from_fuel (f1 : nat) :
  forall (f2 : nat) (under : ModuleRef) (cur : string),
  (String.length cur < f1)%nat -> (String.length cur < f2)%nat ->
  path2class_from f1 under cur = path2class_from f2 under cur.
Proof.
  induction f1 as [|f1 IH]; intros f2 under cur H1 H2; [lia|].
  destruct f2 as [|f2]; [lia|]. cbn [path2class_from].
  destruct (split_scope cur) as [[before rest]|] eqn:Hsplit; [|reflexivity].
  destruct (try_as_Module (get_const under before)); [|reflexivity].
  apply split_scope_shorter in Hsplit. apply IH; lia.
Qed.

Lemma path2class_from_total (f : nat) :
  forall (under : ModuleRef) (cur : string),
  (String.length cur < f)%nat ->
  exists obj, path2class_from f under cur = Some obj.
Proof.
  induction f as [|f IH]; intros under cur Hf; [lia|].
  cbn [path2class_from].
  destruct (split_scope cur) as [[before rest]|] eqn:Hsplit; [|eauto].
  destruct (try_as_Module (get_const under before)); [|eauto].
  apply split_scope_shorter in Hsplit. apply IH. lia.
Qed.

Lemma path2class_from_join (names : list string) :
  Forall colon_free names ->
  forall (f : nat) (under : ModuleRef),
  (String.length (join names) < f)%nat ->
  path2class_from f under (join names) = Some (resolve under names).
Proof.
  induction names as [|name rest IH]; intros Hfree f under Hf.
  - destruct f; [cbn in Hf; lia|]. reflexivity.
  - inversion Hfree as [|? ? Hname Hrest]; subst.
    destruct f as [|f]; [lia|].
    destruct rest as [|next rest].
    + cbn [join resolve path2class_from].
      now rewrite (split_scope_colon_free name Hname).
    + cbn [path2class_from].
      change (join (name :: next :: rest))
        with (name ++ "::" ++ join (next :: rest)) in *.
      rewrite (split_scope_first name _ Hname).
      cbn [resolve].
      destruct (try_as_Module (get_const under name)); [|reflexivity].
      apply IH; [exact Hrest|].
      assert (Hlen : (String.length (join (next :: rest)) + 2
                      <= String.length (name ++ "::" ++ join (next :: rest)))%nat).
      { apply (split_scope_shorter _ name).
        apply split_scope_first. exact Hname. }
      lia.
Qed.

(** X18.  [path2class] ends on every path, and a path that holds no "::"
    is one constant of [Object]: the answer is [get_const] of the whole
    text, the empty text included. *)
Theorem path2class_simple_name (path : string) :
  (exists obj, path2class path = Some obj)
  /\ (split_scope path = None ->
      path2class path = Some (get_const G_object path)).
Proof.
  split.
  - apply path2class_from_total. lia.
  - intros Hnone. unfold path2class. cbn [path2class_from].
    now rewrite Hnone.
Qed.

(** X19.  For names that hold no colon, the path made of them joined by
    "::" is looked up name by name, starting in [Object]: each name but
    the last must be a module, in which the next one is looked up, and
    the answer is [nil] as soon as one of them is not a module. *)
Theorem path2class_join (names : list string) :
  Forall colon_free names ->
  path2class (join names) = Some (resolve G_object names).
Proof.
  intros Hfree. unfold path2class.
  apply path2class_from_join; [exact Hfree|lia].
Qed.

(** X20.  The text before a "::" is looked up even when it is empty: a
    path that starts with "::" is [nil] unless [Object] holds a module
    under the empty name, and a path that ends in "::" asks the last
    module for the empty name. *)
Theorem path2class_empty_names (rest name : string) :
  (try_as_Module (get_const G_object "") = None ->
     path2class ("::" ++ rest) = Some cNil)
  /\ (colon_free name ->
      path2class (name ++ "::") =
        Some match try_as_Module (get_const G_object name) with
             | Some m => get_const m ""
             | None => cNil
             end).
Proof.
  split.
  - intros Hno. unfold path2class. cbn [path2class_from].
    change (split_scope ("::" ++ rest)) with (Some ("", rest)).
    cbv beta iota zeta. now rewrite Hno.
  - intros Hfree.
    change (name ++ "::") with (join [name; ""]).
    rewrite path2class_join; [reflexivity|].
    repeat constructor. exact Hfree.
Qed.

End Lookup.

(** A constant table to run the lookup on: [Object] is module 0 and holds
    the module [Rubinius] (1), which holds the class [VM] (2) and the
    fixnum [VERSION]. *)
Definition sample_const (under : Z) (name : string) : Object :=
  if (under =? 0)%Z && String.eqb name "Rubinius" then Reference 1
  else if (under =? 1)%Z && String.eqb name "VM" then Reference 2
  else if (under =? 1)%Z && String.eqb name "VERSION" then Fixnum 3
  else cNil.

Definition sample_module (obj : Object) : option Z :=
  match obj with
  | Reference a => Some a
  | _ => None
  end.

Example path2class_nested :
  path2class Z 0%Z sample_const sample_module "Rubinius::VM"
  = Some (Reference 2).
Proof. reflexivity. Qed.

Example path2class_through_a_fixnum :
  path2class Z 0%Z sample_const sample_module "Rubinius::VERSION::MAJOR"
  = Some cNil.
Proof. reflexivity. Qed.

Example path2class_leading_scope :
  path2class Z 0%Z sample_const sample_module "::Rubinius" = Some cNil.
Proof. reflexivity. Qed.

Lemma path2class_join_witness :
  Forall colon_free ["Rubinius"; "VM"]
  /\ path2class Z 0%Z sample_const sample_module "Rubinius::VM"
     = Some (resolve Z sample_const sample_module 0%Z ["Rubinius"; "VM"]).
Proof.
  assert (Hfree : Forall colon_free ["Rubinius"; "VM"]).
  { repeat constructor; discriminate. }
  split; [exact Hfree|].
  exact (path2class_join Z 0%Z sample_const sample_module
           ["Rubinius"; "VM"] Hfree).
Defined.

End PathToClass.

(** ** [Autoload::resolve] *)

Module AutoloadResolve.

Local Open Scope eff_scope.

(** The reasons the sources name, [vFound] and [vNonExistent]; the others
    by their code. *)
Inductive ConstantMissingReason : Type :=
| vFound
| vNonExistent
| vOtherReason (code : Z).

Inductive Call : Type :=
| SendResolve
| ConstGet
| ConstMissing.

Section Resolve.

(** The interpreter state, the send of [resolve] to the autoload, the
    constant lookups of [Helpers] and [CBOOL] belong to files that are
    not among the sources.  A null pointer is [None]; a lookup is given
    the reason it starts from and answers the reason it leaves. *)
Variable STATE : Type.
Variable ModuleRef : Type.
Variable Symbol : Type.
Variable CBOOL : Object -> bool.
Variable name : Symbol.
Variable send_resolve : STATE -> option Object * STATE.
Variable Helpers_const_get_under :
  ModuleRef -> Symbol -> ConstantMissingReason -> STATE ->
  option Object * ConstantMissingReason * STATE.
Variable Helpers_const_get :
  Symbol -> ConstantMissingReason -> STATE ->
  option Object * ConstantMissingReason * STATE.
Variable Helpers_const_missing_under :
  ModuleRef -> Symbol -> STATE -> option Object * STATE.
Variable Helpers_const_missing : Symbol -> STATE -> option Object * STATE.

Definition send : Eff STATE Call (option Object) :=
  fun st => let '(res, st') := send_resolve st in (res, st', [SendResolve]).

Definition const_get_under (under : ModuleRef) (reason : ConstantMissingReason)
    : Eff STATE Call (option Object * ConstantMissingReason) :=
  fun st =>
    let '(constant, reason', st') :=
      Helpers_const_get_under under name reason st in
    ((constant, reason'), st', [ConstGet]).

Definition const_get (reason : ConstantMissingReason)
    : Eff STATE Call (option Object * ConstantMissingReason) :=
  fun st =>
    let '(constant, reason', st') := Helpers_const_get name reason st in
    ((constant, reason'), st', [ConstGet]).

Definition const_missing_under (under : ModuleRef)
    : Eff STATE Call (option Object) :=
  fun st =>
    let '(res, st') := Helpers_const_missing_under under name st in
    (res, st', [ConstMissing]).

Definition const_missing : Eff STATE Call (option Object) :=
  fun st =>
    let '(res, st') := Helpers_const_missing name st in
    (res, st', [ConstMissing]).

Definition is_found (reason : ConstantMissingReason) : bool :=
  match reason with
  | vFound => true
  | _ => false
  end.

(** [Autoload::resolve(STATE, CallFrame*, Module* under, bool)] *)
Definition resolve_under (under : ModuleRef) (honor_require : bool)
    : Eff STATE Call (option Object) :=
  let* res := send in
  match res with
  | None => eret None
  | Some res =>
      if CBOOL res || negb honor_require then
        let* found := const_get_under under vNonExistent in
        match fst found with
        | None => eret None
        | Some constant =>
            if is_found (snd found) then eret (Some constant)
            else const_missing_under under
        end
      else eret (Some cNil)
  end.

(** [Autoload::resolve(STATE, CallFrame*, bool)] *)
Definition resolve (honor_require : bool) : Eff STATE Call (option Object) :=
  let* res := send in
  match res with
  | None => eret None
  | Some res =>
      if CBOOL res || negb honor_require then
        let* found := const_get vNonExistent in
        match fst found with
        | None => eret None
        | Some constant =>
            if is_found (snd found) then eret (Some constant)
            else const_missing
        end
      else eret (Some cNil)
  end.

Ltac run_resolve st :=
  unfold resolve, resolve_under, ebind, send, const_get, const_get_under,
    const_missing, const_missing_under, eret, result_of, state_of, log_of;
  destruct (send_resolve st) as [[res|] st1] eqn:Hsend;
  cbn [fst snd].

(** X21.  The lookup is gated by the answer of [resolve]: with
    [honor_require] set and a false answer, the autoload answers [nil]
    and looks no constant up; a failed send (null) is handed on as null
    with nothing else called.  In every other case the constant is
    looked up exactly once. *)
Theorem resolve_gate (honor_require : bool) (st : STATE) :
  let r := resolve honor_require st in
  (fst (send_resolve st) = None ->
     r = (None, snd (send_resolve st), [SendResolve]))
  /\ (forall res, fst (send_resolve st) = Some res ->
        CBOOL res = false -> honor_require = true ->
        r = (Some cNil, snd (send_resolve st), [SendResolve]))
  /\ (forall res, fst (send_resolve st) = Some res ->
        CBOOL res || negb honor_require = true ->
        exists rest, log_of r = SendResolve :: ConstGet :: rest
                     /\ ~ In ConstGet rest).
Proof.
  cbv zeta. run_resolve st.
  - split; [discriminate|]. split.
    + intros res' [= <-] Hfalse ->. now rewrite Hfalse.
    + intros res' [= <-] Hgo. rewrite Hgo.
      destruct (Helpers_const_get name vNonExistent st1)
        as [[[constant|] reason] st2]; cbn [fst snd].
      * destruct (is_found reason).
        -- exists []. cbn. tauto.
        -- destruct (Helpers_const_missing name st2) as [miss st3].
           exists [ConstMissing]. cbn. split; [reflexivity|].
           intros [H|[]]. discriminate.
      * exists []. cbn. tauto.
  - split; [reflexivity|]. split; intros res' Hres; discriminate.
Qed.

(** X22.  Once the constant is looked up: a null lookup is handed on as
    null; a constant found with reason [vFound] is the answer and
    [const_missing] is not called; a constant that comes with any other
    reason is dropped and the answer is that of [const_missing], called
    once. *)
Theorem resolve_lookup (honor_require : bool) (st : STATE) (ans : Object) :
  fst (send_resolve st) = Some ans ->
  CBOOL ans || negb honor_require = true ->
  let st1 := snd (send_resolve st) in
  let r := resolve honor_require st in
  forall constant reason st2,
    Helpers_const_get name vNonExistent st1 = (constant, reason, st2) ->
    (constant = None -> r = (None, st2, [SendResolve; ConstGet]))
    /\ (forall c, constant = Some c -> reason = vFound ->
          r = (Some c, st2, [SendResolve; ConstGet]))
    /\ (forall c, constant = Some c -> reason <> vFound ->
          r = (fst (Helpers_const_missing name st2),
               snd (Helpers_const_missing name st2),
               [SendResolve; ConstGet; ConstMissing])).
Proof.
  intros Hres Hgo st1 r constant reason st2 Hget. subst st1 r.
  run_resolve st; cbn [fst snd] in Hres, Hget; [|discriminate].
  injection Hres as ->. rewrite Hgo, Hget. cbn [fst snd].
  split; [|split].
  - now intros ->.
  - now intros c -> ->.
  - intros c -> Hreason.
    destruct reason; [contradiction| |]; cbn;
      now destruct (Helpers_const_missing name st2).
Qed.

(** X23.  The two overloads are one algorithm: when the lookups under the
    given module answer as the lookups of the calling scope do,
    [resolve] under that module and [resolve] without it have the same
    result, state and calls. *)
Theorem resolve_under_agrees (under : ModuleRef) (honor_require : bool)
    (st : STATE) :
  (forall reason s,
     Helpers_const_get_under under name reason s
     = Helpers_const_get name reason s) ->
  (forall s,
     Helpers_const_missing_under under name s = Helpers_const_missing name s) ->
  resolve_under under honor_require st = resolve honor_require st.
Proof.
  intros Hget Hmiss. run_resolve st; [|reflexivity].
  destruct (CBOOL res || negb honor_require); [|reflexivity].
  rewrite Hget.
  destruct (Helpers_const_get name vNonExistent st1)
    as [[[constant|] reason] st2]; cbn [fst snd]; [|reflexivity].
  destruct (is_found reason); [reflexivity|]. now rewrite Hmiss.
Qed.

End Resolve.

(** An interpreter to run the autoload on: the state counts the calls
    made into it; [resolve] answers true; the constant is found under the
    name 1 and comes back unfound under any other name, for which
    [const_missing] answers [nil]. *)
Definition sample_send (st : nat) : option Object * nat := (Some cTrue, S st).

Definition sample_get (name : Z) (reason : ConstantMissingReason) (st : nat)
    : option Object * ConstantMissingReason * nat :=
  if (name =? 1)%Z then (Some (Reference 64), vFound, S st)
  else (Some cUndef, reason, S st).

Definition sample_get_under (under : Z) (name : Z)
    (reason : ConstantMissingReason) (st : nat)
    : option Object * ConstantMissingReason * nat :=
  sample_get name reason st.

Definition sample_missing (name : Z) (st : nat) : option Object * nat :=
  (Some cNil, S st).

Definition sample_missing_under (under : Z) (name : Z) (st : nat)
    : option Object * nat :=
  sample_missing name st.

Definition truthy (obj : Object) : bool :=
  match obj with
  | cNil | cFalse => false
  | _ => true
  end.

Example resolve_found :
  resolve nat Z truthy 1%Z sample_send sample_get sample_missing true 0%nat
  = (Some (Reference 64), 2%nat, [SendResolve; ConstGet]).
Proof. reflexivity. Qed.

Example resolve_not_found :
  resolve nat Z truthy 2%Z sample_send sample_get sample_missing true 0%nat
  = (Some cNil, 3%nat, [SendResolve; ConstGet; ConstMissing]).
Proof. reflexivity. Qed.

Lemma resolve_lookup_witness :
  fst (sample_send 0%nat) = Some cTrue
  /\ truthy cTrue || negb true = true
  /\ sample_get 2%Z vNonExistent 1%nat = (Some cUndef, vNonExistent, 2%nat)
  /\ resolve nat Z truthy 2%Z sample_send sample_get sample_missing true 0%nat
     = (Some cNil, 3%nat, [SendResolve; ConstGet; ConstMissing]).
Proof.
  do 3 (split; [reflexivity|]).
  destruct (resolve_lookup nat Z truthy 2%Z sample_send sample_get
              sample_missing true 0%nat cTrue eq_refl eq_refl
              (Some cUndef) vNonExistent 2%nat eq_refl) as (_ & _ & Hmissing).
  exact (Hmissing cUndef eq_refl ltac:(discriminate)).
Defined.

Lemma resolve_under_agrees_witness :
  (forall reason s, sample_get_under 7%Z 1%Z reason s = sample_get 1%Z reason s)
  /\ (forall s, sample_missing_under 7%Z 1%Z s = sample_missing 1%Z s)
  /\ resolve_under nat Z Z truthy 1%Z sample_send sample_get_under
       sample_missing_under 7%Z false 0%nat
     = resolve nat Z truthy 1%Z sample_send sample_get sample_missing
         false 0%nat.
Proof.
  assert (Hget : forall reason s,
            sample_get_under 7%Z 1%Z reason s = sample_get 1%Z reason s)
    by reflexivity.
  assert (Hmiss : forall s,
            sample_missing_under 7%Z 1%Z s = sample_missing 1%Z s)
    by reflexivity.
  split; [exact Hget|]. split; [exact Hmiss|].
  exact (resolve_under_agrees nat Z Z truthy 1%Z sample_send sample_get_under
           sample_get sample_missing_under sample_missing 7%Z false 0%nat
           Hget Hmiss).
Defined.

End AutoloadResolve.
